(** * Emilator: a shallow embedding of the LLIL emulator

    The development follows [emilator.py]: the register file with
    sub-register aliasing ([set_register_value], [get_register_value]), the
    flag store, the memory accessors ([read_memory], [write_memory]) and the
    expression visitor ([visit_LLIL_*]).

    Python integers are unbounded, so they are embedded as [Z] and the
    bit operators [&], [|], [^], [<<], [>>] as [Z.land], [Z.lor], [Z.lxor],
    [Z.shiftl], [Z.shiftr], which agree with Python on negative operands
    (infinite two's complement).  Methods of the interpreter mutate [self]
    and may raise; they are embedded in a state-and-exception monad in which
    an exception keeps the state reached so far (Python does not roll back). *)

From Stdlib Require Import ZArith Lia.
From stdpp Require Import gmap strings list fin_maps.

Local Open Scope Z_scope.

(** ** Python values and exceptions *)

(** The values that flow through the visitor are integers and booleans
    (comparisons, [visit_LLIL_SET_REG], [visit_LLIL_CALL] and unset flags
    produce [bool]).  In Python [bool] is a subclass of [int]: [True] and
    [False] take part in arithmetic as [1] and [0]. *)
Inductive pyval : Type :=
| PInt (z : Z)
| PBool (b : bool).

Definition as_int (v : pyval) : Z :=
  match v with
  | PInt z => z
  | PBool b => if b then 1 else 0
  end.

(** [if v:] *)
Definition truthy (v : pyval) : bool := negb (as_int v =? 0).

(** [a & b], [a | b], [a ^ b]: two [bool] operands give a [bool], anything
    else gives an [int]. *)
Definition py_bitop (fz : Z -> Z -> Z) (fb : bool -> bool -> bool)
    (a b : pyval) : pyval :=
  match a, b with
  | PBool x, PBool y => PBool (fb x y)
  | _, _ => PInt (fz (as_int a) (as_int b))
  end.

Definition py_and : pyval -> pyval -> pyval := py_bitop Z.land andb.
Definition py_or : pyval -> pyval -> pyval := py_bitop Z.lor orb.
Definition py_xor : pyval -> pyval -> pyval := py_bitop Z.lxor xorb.

(** The exception classes the interpreter raises or lets through:
    [errors.UndefinedError], [errors.MemoryAccessError],
    [errors.UnimplementedError] and the builtins. *)
Inductive exn : Type :=
| UndefinedError
| MemoryAccessError
| UnimplementedError
| ValueError
| KeyError
| TypeError
| AttributeError
| StructError
| StopIteration.

Inductive outcome (A : Type) : Type :=
| Ok (a : A)
| Raise (e : exn).
Arguments Ok {A} a.
Arguments Raise {A} e.

(** [a << n] and [a >> n] raise [ValueError] on a negative shift count. *)
Definition py_lshift (a n : Z) : outcome Z :=
  if n <? 0 then Raise ValueError else Ok (Z.shiftl a n).

Definition py_rshift (a n : Z) : outcome Z :=
  if n <? 0 then Raise ValueError else Ok (Z.shiftr a n).

(** [sign_extend(value, bits)], the module-level helper. *)
Definition sign_extend (value : Z) (bits : Z) : outcome Z :=
  match py_lshift 1 (bits - 1) with
  | Ok sign_bit => Ok (Z.land value (sign_bit - 1) - Z.land value sign_bit)
  | Raise e => Raise e
  end.

(** ** The architecture descriptor (read-only input of the interpreter)

    [RegisterInfo], [ImplicitRegisterExtend], [Endianness] and
    [Architecture] belong to the disassembler's API.  Sizes and offsets are
    unsigned there, hence [N]. *)
Inductive ImplicitRegisterExtend : Type :=
| NoExtend
| ZeroExtendToFullWidth
| SignExtendToFullWidth.

Inductive Endianness : Type :=
| LittleEndian
| BigEndian.

Record RegisterInfo : Type := {
  full_width_reg : string;
  size : N;
  offset : N;
  extend : ImplicitRegisterExtend
}.

Record Architecture : Type := {
  regs : gmap string RegisterInfo;
  stack_pointer : string;
  endianness : Endianness;
  address_size : N
}.

Global Instance ImplicitRegisterExtend_eq_dec : EqDecision ImplicitRegisterExtend.
Proof. solve_decision. Defined.

Global Instance Endianness_eq_dec : EqDecision Endianness.
Proof. solve_decision. Defined.

(** An [ILRegister] operand carries the register index and its name. *)
Record ILRegister : Type := {
  index : Z;
  name : string
}.

(** What callers pass as [register]: a bare index, an [ILRegister], or a
    register name. *)
Inductive register_arg : Type :=
| RegIndex (i : Z)
| RegIL (r : ILRegister)
| RegName (n : string).

(** Keys of the [_regs] dictionary: temporaries are stored under their
    integer index, architectural registers under the name of their
    full-width register. *)
Definition regkey : Type := Z + string.

(** [1 << size * 8] *)
Definition bit (size : N) : Z := Z.shiftl 1 (Z.of_N size * 8).

(** ** [struct.pack] / [struct.unpack] for the single-item formats used

    The interpreter builds its format string as ['<' + fmt[length]] on a
    little-endian architecture and as [fmt[length]] alone otherwise.  Without
    a prefix the [struct] module uses the byte order and the C type sizes of
    the machine the interpreter runs on, which is why the host is a
    parameter here; with ['<'] the order is little-endian and the sizes are
    the standard ones ([B]=1, [H]=2, [L]=4, [Q]=8). *)
Module struct.

Inductive code : Type := B | H | L | Q.

Record format : Type := {
    little_prefix : bool;
    item : code
  }.

Record Host : Type := {
    host_little_endian : bool;
    host_sizeof_long : nat
  }.

Definition calcsize (host : Host) (f : format) : nat :=
    match item f with
    | B => 1
    | H => 2
    | L => if little_prefix f then 4 else host_sizeof_long host
    | Q => 8
    end%nat.

Definition is_little (host : Host) (f : format) : bool :=
    if little_prefix f then true else host_little_endian host.

  (** Bytes are integers in [0, 256), least significant first. *)
Fixpoint le_bytes (n : nat) (v : Z) : list Z :=
    match n with
    | O => []
    | S k => v mod 256 :: le_bytes k (v / 256)
    end.

Fixpoint le_value (bs : list Z) : Z :=
    match bs with
    | [] => 0
    | b :: rest => b + 256 * le_value rest
    end.

  (** [struct.pack(f, v)]: [struct.error] when [v] does not fit the item. *)
Definition pack (host : Host) (f : format) (v : Z) : outcome (list Z) :=
    let n := calcsize host f in
    if (0 <=? v) && (v <? 2 ^ (8 * Z.of_nat n)) then
      Ok (if is_little host f then le_bytes n v else rev (le_bytes n v))
    else Raise StructError.

  (** [struct.unpack(f, bs)[0]]: [struct.error] unless [bs] has exactly
      [calcsize f] bytes. *)
Definition unpack (host : Host) (f : format) (bs : list Z) : outcome Z :=
    if Nat.eqb (length bs) (calcsize host f) then
      Ok (le_value (if is_little host f then bs else rev bs))
    else Raise StructError.

End struct.

(** [fmt = {1: 'B', 2: 'H', 4: 'L', 8: 'Q'}] *)
Definition fmt : gmap Z struct.code :=
  <[1 := struct.B]> (<[2 := struct.H]> (<[4 := struct.L]> (<[8 := struct.Q]> ∅))).

(** ** The memory image *)
Module Memory.

  (** Modelled from the spec: the class [memory.Memory] (module [memory],
      imported by [emilator.py]).  A
      segment has a base address, a length, permission flags and an owned
      byte buffer of [length] bytes. *)
Record segment : Type := {
    seg_start : Z;
    seg_length : Z;
    seg_flags : Z;
    seg_data : list Z
  }.

  (** Modelled from the spec: the state of [memory.Memory], a sparse
      collection of mapped segments over an address space of
      [address_size] bytes. *)
Record t : Type := {
    mem_address_size : N;
    segments : list segment
  }.

(** Modelled from the spec: a segment covers the addresses from its base
    up to, not including, base plus length. *)
Definition covers (addr : Z) (seg : segment) : bool :=
    (seg_start seg <=? addr) && (addr <? seg_start seg + seg_length seg).

  (** Modelled from the spec: [Memory.__contains__]; "true iff some segment
      covers the address". *)
Definition contains (m : t) (addr : Z) : bool :=
    existsb (covers addr) (segments m).

  (** Modelled from the spec: the byte buffer is owned by its segment, so a
    write replaces the segment that covers [addr] by the updated [seg']. *)
Fixpoint replace_segment (addr : Z) (seg' : segment) (l : list segment)
      : list segment :=
    match l with
    | [] => []
    | seg :: rest =>
        if covers addr seg then seg' :: rest
        else seg :: replace_segment addr seg' rest
    end.

  (** Modelled from the spec: [Memory.read(address, length)]; the [length]
      raw bytes at [address], failing with [MemoryAccessError] "if address
      is not covered by any segment, or if the read would cross a segment
      boundary". *)
Definition read (m : t) (addr : Z) (len : Z) : outcome (list Z) :=
    match List.find (covers addr) (segments m) with
    | None => Raise MemoryAccessError
    | Some seg =>
        if addr + len <=? seg_start seg + seg_length seg then
          Ok (take (Z.to_nat len) (drop (Z.to_nat (addr - seg_start seg)) (seg_data seg)))
        else Raise MemoryAccessError
    end.

  (** Modelled from the spec: [Memory.write(address, bytes)]; "same
      addressing rule", failing with [MemoryAccessError] "under the same
      conditions as read". *)
Definition write (m : t) (addr : Z) (data : list Z) : outcome t :=
    match List.find (covers addr) (segments m) with
    | None => Raise MemoryAccessError
    | Some seg =>
        if addr + Z.of_nat (length data) <=? seg_start seg + seg_length seg then
          let off := Z.to_nat (addr - seg_start seg) in
          let buf := take off (seg_data seg) ++ data
                       ++ drop (off + length data) (seg_data seg) in
          let seg' := {| seg_start := seg_start seg;
                         seg_length := seg_length seg;
                         seg_flags := seg_flags seg;
                         seg_data := buf |} in
          Ok {| mem_address_size := mem_address_size m;
                segments := replace_segment addr seg' (segments m) |}
        else Raise MemoryAccessError
    end.

End Memory.

(** ** IL expressions

    One constructor per [visit_LLIL_*] method of the interpreter, with the
    operands that method reads. *)
Inductive expr : Type :=
| LLIL_SET_REG (size : N) (dest : ILRegister) (src : expr)
| LLIL_CONST (size : N) (constant : Z)
| LLIL_CONST_PTR (size : N) (constant : Z)
| LLIL_REG (size : N) (src : ILRegister)
| LLIL_LOAD (size : N) (src : expr)
| LLIL_STORE (size : N) (dest : expr) (src : expr)
| LLIL_PUSH (size : N) (src : expr)
| LLIL_POP (size : N)
| LLIL_GOTO (dest : Z)
| LLIL_IF (condition : expr) (true_target false_target : Z)
| LLIL_CMP_NE (size : N) (left right : expr)
| LLIL_CMP_E (size : N) (left right : expr)
| LLIL_CMP_SLT (size : N) (left right : expr)
| LLIL_CMP_UGT (size : N) (left right : expr)
| LLIL_ADD (size : N) (left right : expr)
| LLIL_AND (size : N) (left right : expr)
| LLIL_OR (size : N) (left right : expr)
| LLIL_SUB (size : N) (left right : expr)
| LLIL_SET_FLAG (dest : Z) (src : expr)
| LLIL_FLAG (src : Z)
| LLIL_RET (dest : expr)
| LLIL_CALL (dest : expr)
| LLIL_SX (size : N) (src : expr)
| LLIL_ZX (size : N) (src : expr)
| LLIL_XOR (size : N) (left right : expr)
| LLIL_LSL (size : N) (left right : expr)
| LLIL_LSR (size : N) (left right : expr).

(** A [LowLevelILFunction]: its architecture and its instruction list. *)
Record LowLevelILFunction : Type := {
  arch : Architecture;
  instructions : list expr
}.

(** ** The interpreter state *)

(** Calls that leave the interpreter, recorded in order (instrumentation:
    the Python object has no such field).  Function hooks are Python
    callables and the [BinaryView] belongs to the disassembler; both are
    opaque to the interpreter. *)
Inductive event (Hook : Type) : Type :=
| HookInvoked (target : Z) (hook : Hook)
| GetFunctionAt (target : Z)
| CreateUserFunction (target : Z)
| UpdateAnalysisAndWait.
Arguments HookInvoked {Hook} target hook.
Arguments GetFunctionAt {Hook} target.
Arguments CreateUserFunction {Hook} target.
Arguments UpdateAnalysisAndWait {Hook}.

(** The fields of an [Emilator] instance.  [_regs] is one dictionary for
    temporaries (integer keys) and full-width registers (name keys). *)
Record Emilator (Hook BinaryView : Type) : Type := {
  _function : LowLevelILFunction;
  _view : BinaryView;
  _regs : gmap regkey pyval;
  _flags : gmap Z pyval;
  _memory : Memory.t;
  _function_hooks : gmap Z Hook;
  instr_index : Z;
  events : list (event Hook)
}.
Arguments _function {Hook BinaryView} _.
Arguments _view {Hook BinaryView} _.
Arguments _regs {Hook BinaryView} _.
Arguments _flags {Hook BinaryView} _.
Arguments _memory {Hook BinaryView} _.
Arguments _function_hooks {Hook BinaryView} _.
Arguments instr_index {Hook BinaryView} _.
Arguments events {Hook BinaryView} _.

(** What the interpreter takes from its surroundings. *)
Class Environment (Hook BinaryView : Type) : Type := {
  (** [LLIL_REG_IS_TEMP] and [LLIL_GET_TEMP_REG_INDEX] are imported from
      the disassembler's API.  The latter is only used to build error
      messages, where it is applied to whatever [register] is at that
      point, so it may itself fail. *)
  LLIL_REG_IS_TEMP : Z -> bool;
  LLIL_GET_TEMP_REG_INDEX : register_arg -> outcome Z;
  (** The machine the interpreter runs on (see [struct]). *)
  host : struct.Host;
  (** The three [BinaryView] methods [visit_LLIL_CALL] uses;
      [get_function_at] gives the [low_level_il] of the function found. *)
  get_function_at : BinaryView -> Z -> option LowLevelILFunction;
  create_user_function : BinaryView -> Z -> BinaryView;
  update_analysis_and_wait : BinaryView -> BinaryView;
  (** What a hook does when it is called with the interpreter.  A hook
      sees the Python object only, so the [events] it returns are ignored. *)
  call_hook : Hook -> Emilator Hook BinaryView ->
              outcome unit * Emilator Hook BinaryView
}.

(** ** The interpreter *)
Section Emilator.

Context {Hook BinaryView : Type} {env : Environment Hook BinaryView}.

#[local] Abbreviation Emilator := (Emilator Hook BinaryView).
#[local] Abbreviation event := (event Hook).

Definition with_function (f : LowLevelILFunction) (s : Emilator) : Emilator :=
  {| _function := f; _view := _view s; _regs := _regs s; _flags := _flags s;
     _memory := _memory s; _function_hooks := _function_hooks s;
     instr_index := instr_index s; events := events s |}.

Definition with_view (v : BinaryView) (s : Emilator) : Emilator :=
  {| _function := _function s; _view := v; _regs := _regs s; _flags := _flags s;
     _memory := _memory s; _function_hooks := _function_hooks s;
     instr_index := instr_index s; events := events s |}.

Definition with_regs (r : gmap regkey pyval) (s : Emilator) : Emilator :=
  {| _function := _function s; _view := _view s; _regs := r; _flags := _flags s;
     _memory := _memory s; _function_hooks := _function_hooks s;
     instr_index := instr_index s; events := events s |}.

Definition with_flags (f : gmap Z pyval) (s : Emilator) : Emilator :=
  {| _function := _function s; _view := _view s; _regs := _regs s; _flags := f;
     _memory := _memory s; _function_hooks := _function_hooks s;
     instr_index := instr_index s; events := events s |}.

Definition with_memory (m : Memory.t) (s : Emilator) : Emilator :=
  {| _function := _function s; _view := _view s; _regs := _regs s; _flags := _flags s;
     _memory := m; _function_hooks := _function_hooks s;
     instr_index := instr_index s; events := events s |}.

Definition with_function_hooks (h : gmap Z Hook) (s : Emilator) : Emilator :=
  {| _function := _function s; _view := _view s; _regs := _regs s; _flags := _flags s;
     _memory := _memory s; _function_hooks := h;
     instr_index := instr_index s; events := events s |}.

Definition with_instr_index (i : Z) (s : Emilator) : Emilator :=
  {| _function := _function s; _view := _view s; _regs := _regs s; _flags := _flags s;
     _memory := _memory s; _function_hooks := _function_hooks s;
     instr_index := i; events := events s |}.

Definition with_events (l : list event) (s : Emilator) : Emilator :=
  {| _function := _function s; _view := _view s; _regs := _regs s; _flags := _flags s;
     _memory := _memory s; _function_hooks := _function_hooks s;
     instr_index := instr_index s; events := l |}.

(** *** The monad of methods: state plus exceptions *)
Definition M (A : Type) : Type := Emilator -> outcome A * Emilator.

#[global] Instance M_ret : MRet M := fun A a s => (Ok a, s).

#[global] Instance M_bind : MBind M := fun A B f m s =>
  match m s with
  | (Ok a, s') => f a s'
  | (Raise e, s') => (Raise e, s')
  end.

Definition raise {A : Type} (e : exn) : M A := fun s => (Raise e, s).

Definition gets {A : Type} (f : Emilator -> A) : M A := fun s => (Ok (f s), s).

Definition modify (f : Emilator -> Emilator) : M unit := fun s => (Ok tt, f s).

Definition lift {A : Type} (o : outcome A) : M A := fun s => (o, s).

(** [d[k]] on a dictionary: [KeyError] when the key is absent. *)
Definition subscript {K : Type} `{Countable K} {V : Type} (d : gmap K V) (k : K) : M V :=
  match d !! k with
  | Some v => mret v
  | None => raise KeyError
  end.

(** [register_function_hook] *)
Definition register_function_hook (function : Z) (hook : Hook) : M unit :=
  modify (fun s => with_function_hooks (<[function := hook]> (_function_hooks s)) s).

(** *** Register file *)

(** [self._regs[key] = value] *)
Definition store_reg (key : regkey) (value : pyval) : M unit :=
  modify (fun s => with_regs (<[key := value]> (_regs s)) s).

(** [set_register_value] from [arch = self._function.arch] on, where
    [register] is a register name. *)
Definition set_register_value_named (register : string) (value : pyval) : M pyval :=
  arch ← gets (fun s => arch (_function s));
  reg_info ← subscript (regs arch) register;
  (* normalize value to be unsigned *)
  let value :=
    if as_int value <? 0 then PInt (as_int value + bit (size reg_info)) else value in
  if decide (register = full_width_reg reg_info) then
    store_reg (inr register) value;;
    mret value
  else
    full_width_reg_info ← subscript (regs arch) (full_width_reg reg_info);
    full_width_reg_value ←
      gets (fun s => _regs s !! (inr (full_width_reg full_width_reg_info) : regkey));
    if bool_decide (full_width_reg_value = None) &&
         (bool_decide (extend reg_info = NoExtend) ||
          negb (bool_decide (offset reg_info = 0%N))) then
      raise UndefinedError
    else
      full_width_reg_value ←
        match extend reg_info with
        | ZeroExtendToFullWidth => mret value
        | SignExtendToFullWidth =>
            mret (PInt (Z.lxor (as_int value) (bit (size reg_info) - 1)
                        - (bit (size reg_info) - 1)
                        + bit (size full_width_reg_info)))
        | NoExtend =>
            (* mask off the value that will be replaced *)
            let mask := bit (size reg_info) - 1 in
            let full_mask := bit (size full_width_reg_info) - 1 in
            let reg_bits := Z.shiftl mask (Z.of_N (offset reg_info) * 8) in
            match full_width_reg_value with
            | None => raise TypeError
            | Some full =>
                let cleared := Z.land (as_int full) (Z.lxor full_mask reg_bits) in
                mret (PInt (Z.lor cleared
                              (Z.shiftl (as_int value) (Z.of_N (offset reg_info) * 8))))
            end
        end;
      store_reg (inr (full_width_reg full_width_reg_info)) full_width_reg_value;;
      mret full_width_reg_value.

Definition set_register_value (register : register_arg) (value : pyval) : M pyval :=
  match register with
  | RegIndex i =>
      (* If it's a temp register, just set the value no matter what. *)
      if LLIL_REG_IS_TEMP i then
        store_reg (inl i) value;;
        mret value
      else
        (* arch.regs is keyed by name: an int is never a key *)
        raise KeyError
  | RegIL r =>
      if negb (LLIL_REG_IS_TEMP (index r)) then
        set_register_value_named (name r) value
      else
        store_reg (inl (index r)) value;;
        mret value
  | RegName n => set_register_value_named n value
  end.

(** [get_register_value] from [reg_info = self._function.arch.regs[register]]
    on, where [register] is a register name. *)
Definition get_register_value_named (register : string) : M pyval :=
  arch ← gets (fun s => arch (_function s));
  reg_info ← subscript (regs arch) register;
  full_reg_value ← gets (fun s => _regs s !! (inr (full_width_reg reg_info) : regkey));
  match full_reg_value with
  | None => raise UndefinedError
  | Some full_reg_value =>
      let mask := bit (size reg_info) - 1 in
      if decide (register = full_width_reg reg_info) then
        mret (PInt (Z.land (as_int full_reg_value) mask))
      else
        let reg_bits := Z.shiftl mask (Z.of_N (offset reg_info) * 8) in
        mret (PInt (Z.shiftr (Z.land (as_int full_reg_value) reg_bits)
                      (Z.of_N (offset reg_info) * 8)))
  end.

(** The lookup of a temporary, shared by the two temporary branches; the
    error message is built from [register] as passed. *)
Definition get_temp_register_value (key : Z) (register : register_arg) : M pyval :=
  reg_value ← gets (fun s => _regs s !! (inl key : regkey));
  match reg_value with
  | None =>
      _ ← lift (LLIL_GET_TEMP_REG_INDEX register);
      raise UndefinedError
  | Some reg_value => mret reg_value
  end.

Definition get_register_value (register : register_arg) : M pyval :=
  match register with
  | RegIndex i =>
      if LLIL_REG_IS_TEMP i then get_temp_register_value i register
      else raise KeyError
  | RegIL r =>
      if negb (LLIL_REG_IS_TEMP (index r)) then get_register_value_named (name r)
      else get_temp_register_value (index r) register
  | RegName n => get_register_value_named n
  end.

(** The name under which [set_register_value] and [get_register_value] look
    the register up in [arch.regs]; [None] for a temporary and for a bare
    non-temporary index. *)
Definition architectural_name (register : register_arg) : option string :=
  match register with
  | RegIndex _ => None
  | RegIL r => if LLIL_REG_IS_TEMP (index r) then None else Some (name r)
  | RegName n => Some n
  end.

(** *** Flag store *)
Definition set_flag_value (flag : Z) (value : pyval) : M pyval :=
  modify (fun s => with_flags (<[flag := value]> (_flags s)) s);;
  mret value.

(** Any previously unset flag is [False]. *)
Definition get_flag_value (flag : Z) : M pyval :=
  gets (fun s => default (PBool false) (_flags s !! flag)).

(** *** Memory accessors *)

(** The format string [('<' if little-endian else '') + fmt[length]]. *)
Definition pack_fmt_of (e : Endianness) (c : struct.code) : struct.format :=
  {| struct.little_prefix := bool_decide (e = LittleEndian); struct.item := c |}.

Definition read_memory (addr : Z) (length : Z) : M pyval :=
  match fmt !! length with
  | None => raise ValueError
  | Some c =>
      e ← gets (fun s => endianness (arch (_function s)));
      let pack_fmt := pack_fmt_of e c in
      mem ← gets _memory;
      if negb (Memory.contains mem addr) then raise MemoryAccessError
      else
        (* try: ... except: raise MemoryAccessError *)
        match Memory.read mem addr length with
        | Ok bs =>
            match struct.unpack host pack_fmt bs with
            | Ok v => mret (PInt v)
            | Raise _ => raise MemoryAccessError
            end
        | Raise _ => raise MemoryAccessError
        end
  end.

(** [data] is either an integer, packed with [struct.pack], or a byte
    string written as it is. *)
Inductive write_data : Type :=
| DataInt (v : pyval)
| DataBytes (bs : list Z).

(** [length not in (1, 2, 4, 8)]; the default [length=None] is not in it. *)
Definition valid_length (length : option Z) : bool :=
  match length with
  | Some n => (n =? 1) || (n =? 2) || (n =? 4) || (n =? 8)
  | None => false
  end.

Definition write_memory (addr : Z) (data : write_data) (length : option Z) : M pyval :=
  mem ← gets _memory;
  if negb (Memory.contains mem addr) then raise MemoryAccessError
  else
    data ←
      match data with
      | DataInt v =>
          if negb (valid_length length) then raise KeyError
          else
            c ← subscript fmt (default 0 length);
            e ← gets (fun s => endianness (arch (_function s)));
            lift (struct.pack host (pack_fmt_of e c) (as_int v))
      | DataBytes bs => mret bs
      end;
    mem' ← lift (Memory.write mem addr data);
    modify (with_memory mem');;
    mret (PBool true).

(** The two exceptions with which the accessors reject a width:
    [ValueError] in [read_memory], [KeyError] in [write_memory]. *)
Definition invalid_width_error (e : exn) : bool :=
  match e with
  | ValueError | KeyError => true
  | _ => false
  end.

(** *** The visitor *)

(** [self._function_hooks[target](self)] *)
Definition invoke_hook (target : Z) (hook : Hook) : M unit := fun s =>
  let '(r, s') := call_hook hook s in
  (r, with_events (events s ++ [HookInvoked target hook]) s').

Definition log_event (ev : event) : M unit :=
  modify (fun s => with_events (events s ++ [ev]) s).

(** [self._view.get_function_at(target)] *)
Definition view_get_function_at (target : Z) : M (option LowLevelILFunction) :=
  log_event (GetFunctionAt target);;
  gets (fun s => get_function_at (_view s) target).

(** [self._function = target_function.low_level_il; self.instr_index = 0] *)
Definition switch_function (target_function : option LowLevelILFunction) : M pyval :=
  match target_function with
  | None => raise AttributeError
  | Some il =>
      modify (with_function il);;
      modify (with_instr_index 0);;
      mret (PBool true)
  end.

(** Each branch is the [visit_LLIL_*] method of that name.

    Modelled from the spec: the dispatcher [LLILVisitor.visit] of module
    [llilvisitor], which hands a node to the method for its kind. *)
Fixpoint visit (e : expr) : M pyval :=
  match e with
  | LLIL_SET_REG _ dest src =>
      value ← visit src;
      set_register_value (RegIL dest) value;;
      mret (PBool true)
  | LLIL_CONST _ constant => mret (PInt constant)
  | LLIL_CONST_PTR _ constant => mret (PInt constant)
  | LLIL_REG _ src => get_register_value (RegIL src)
  | LLIL_LOAD size src =>
      addr ← visit src;
      read_memory (as_int addr) (Z.of_N size)
  | LLIL_STORE size dest src =>
      addr ← visit dest;
      value ← visit src;
      write_memory (as_int addr) (DataInt value) (Some (Z.of_N size));;
      mret (PBool true)
  | LLIL_PUSH size src =>
      sp ← gets (fun s => stack_pointer (arch (_function s)));
      value ← visit src;
      sp_value ← get_register_value (RegName sp);
      write_memory (as_int sp_value) (DataInt value) (Some (Z.of_N size));;
      let sp_value := PInt (as_int sp_value - Z.of_N size) in
      set_register_value (RegName sp) sp_value
  | LLIL_POP size =>
      sp ← gets (fun s => stack_pointer (arch (_function s)));
      sp_value ← get_register_value (RegName sp);
      let sp_value := PInt (as_int sp_value + Z.of_N size) in
      value ← read_memory (as_int sp_value) (Z.of_N size);
      set_register_value (RegName sp) sp_value;;
      mret value
  | LLIL_GOTO dest =>
      modify (with_instr_index dest);;
      mret (PInt dest)
  | LLIL_IF condition true_target false_target =>
      condition ← visit condition;
      modify (with_instr_index (if truthy condition then true_target else false_target));;
      mret condition
  | LLIL_CMP_NE _ l r =>
      left_ ← visit l;
      right_ ← visit r;
      mret (PBool (negb (as_int left_ =? as_int right_)))
  | LLIL_CMP_E _ l r =>
      left_ ← visit l;
      right_ ← visit r;
      mret (PBool (as_int left_ =? as_int right_))
  | LLIL_CMP_SLT size l r =>
      left_ ← visit l;
      right_ ← visit r;
      sign_bit ← lift (py_lshift 1 (Z.of_N size * 8 - 1));
      let left_ :=
        if negb (Z.land (as_int left_) sign_bit =? 0) then as_int left_ - bit size
        else as_int left_ in
      let right_ :=
        if negb (Z.land (as_int right_) sign_bit =? 0) then as_int right_ - bit size
        else as_int right_ in
      mret (PBool (left_ <? right_))
  | LLIL_CMP_UGT _ l r =>
      left_ ← visit l;
      right_ ← visit r;
      mret (PBool (as_int right_ <? as_int left_))
  | LLIL_ADD size l r =>
      left_ ← visit l;
      right_ ← visit r;
      let mask := bit size - 1 in
      mret (PInt (Z.land (as_int left_ + as_int right_) mask))
  | LLIL_AND _ l r =>
      left_ ← visit l;
      right_ ← visit r;
      mret (py_and left_ right_)
  | LLIL_OR _ l r =>
      left_ ← visit l;
      right_ ← visit r;
      mret (py_or left_ right_)
  | LLIL_SUB _ l r =>
      left_ ← visit l;
      right_ ← visit r;
      mret (PInt (as_int left_ - as_int right_))
  | LLIL_SET_FLAG dest src =>
      value ← visit src;
      set_flag_value dest value
  | LLIL_FLAG src => get_flag_value src
  | LLIL_RET _ => raise StopIteration
  | LLIL_CALL dest =>
      target ← visit dest;
      hooks ← gets _function_hooks;
      match hooks !! as_int target with
      | Some hook =>
          invoke_hook (as_int target) hook;;
          mret (PBool true)
      | None =>
          target_function ← view_get_function_at (as_int target);
          match target_function with
          | Some _ => switch_function target_function
          | None =>
              modify (fun s => with_view (create_user_function (_view s) (as_int target)) s);;
              log_event (CreateUserFunction (as_int target));;
              modify (fun s => with_view (update_analysis_and_wait (_view s)) s);;
              log_event UpdateAnalysisAndWait;;
              target_function ← view_get_function_at (as_int target);
              switch_function target_function
          end
      end
  | LLIL_SX size src =>
      orig_value ← visit src;
      sign_bit ← lift (py_lshift 1 (Z.of_N size * 8 - 1));
      mret (PInt (Z.land (as_int orig_value) (sign_bit - 1)
                  - Z.land (as_int orig_value) sign_bit))
  | LLIL_ZX _ src => visit src
  | LLIL_XOR _ l r =>
      left_ ← visit l;
      right_ ← visit r;
      mret (py_xor left_ right_)
  | LLIL_LSL size l r =>
      let mask := bit size - 1 in
      left_ ← visit l;
      right_ ← visit r;
      shifted ← lift (py_lshift (as_int left_) (as_int right_));
      mret (PInt (Z.land shifted mask))
  | LLIL_LSR _ l r =>
      left_ ← visit l;
      right_ ← visit r;
      shifted ← lift (py_rshift (as_int left_) (as_int right_));
      mret (PInt shifted)
  end.

(** The key under which a temporary is stored: the bare index, or the
    [index] of an [ILRegister], when [LLIL_REG_IS_TEMP] holds of it. *)
Definition temporary_key (register : register_arg) : option Z :=
  match register with
  | RegIndex i => if LLIL_REG_IS_TEMP i then Some i else None
  | RegIL r => if LLIL_REG_IS_TEMP (index r) then Some (index r) else None
  | RegName _ => None
  end.

(** *** The remaining hook and memory entry points *)

(** [unregister_function_hook]: the body is [pass], the registry is not
    touched. *)
Definition unregister_function_hook (function : Z) (hook : Hook) : M unit :=
  mret tt.

(** [register_instruction_hook] and [unregister_instruction_hook]: [pass]. *)
Definition register_instruction_hook (operand : Z) (hook : Hook) : M unit :=
  mret tt.

Definition unregister_instruction_hook (operand : Z) (hook : Hook) : M unit :=
  mret tt.

(** [unmap_memory] *)
Definition unmap_memory (base : Z) (size : Z) : M unit :=
  raise UnimplementedError.

End Emilator.

(** ** Classes of expressions *)

(** Whether evaluating [e] reaches a node that writes: a register, a flag,
    memory, the stack pointer or the instruction index.  [LLIL_RET] raises
    before it looks at its operand. *)
Fixpoint writes (e : expr) : bool :=
  match e with
  | LLIL_SET_REG _ _ _ | LLIL_STORE _ _ _ | LLIL_PUSH _ _ | LLIL_POP _
  | LLIL_GOTO _ | LLIL_IF _ _ _ | LLIL_SET_FLAG _ _ | LLIL_CALL _ => true
  | LLIL_CONST _ _ | LLIL_CONST_PTR _ _ | LLIL_REG _ _ | LLIL_FLAG _
  | LLIL_RET _ => false
  | LLIL_LOAD _ src | LLIL_SX _ src | LLIL_ZX _ src => writes src
  | LLIL_CMP_NE _ l r | LLIL_CMP_E _ l r | LLIL_CMP_SLT _ l r
  | LLIL_CMP_UGT _ l r | LLIL_ADD _ l r | LLIL_AND _ l r | LLIL_OR _ l r
  | LLIL_SUB _ l r | LLIL_XOR _ l r | LLIL_LSL _ l r | LLIL_LSR _ l r =>
      writes l || writes r
  end.

(** Whether evaluating [e] reaches a [Goto], [If] or [Call] node, the three
    that assign [instr_index] (a [Call] may also replace [_function]). *)
Fixpoint redirects (e : expr) : bool :=
  match e with
  | LLIL_GOTO _ | LLIL_IF _ _ _ | LLIL_CALL _ => true
  | LLIL_CONST _ _ | LLIL_CONST_PTR _ _ | LLIL_REG _ _ | LLIL_FLAG _
  | LLIL_POP _ | LLIL_RET _ => false
  | LLIL_SET_REG _ _ src | LLIL_LOAD _ src | LLIL_PUSH _ src
  | LLIL_SET_FLAG _ src | LLIL_SX _ src | LLIL_ZX _ src => redirects src
  | LLIL_STORE _ dest src => redirects dest || redirects src
  | LLIL_CMP_NE _ l r | LLIL_CMP_E _ l r | LLIL_CMP_SLT _ l r
  | LLIL_CMP_UGT _ l r | LLIL_ADD _ l r | LLIL_AND _ l r | LLIL_OR _ l r
  | LLIL_SUB _ l r | LLIL_XOR _ l r | LLIL_LSL _ l r | LLIL_LSR _ l r =>
      redirects l || redirects r
  end.

(** The part of the interpreter that decides what runs next and what a
    [Call] consults: instruction index, active function, hook registry,
    view, and the record of outside calls. *)
Definition control {Hook BinaryView : Type} (s : Emilator Hook BinaryView)
    : Z * LowLevelILFunction * gmap Z Hook * BinaryView * list (event Hook) :=
  (instr_index s, _function s, _function_hooks s, _view s, events s).

(** ** The stepping driver *)
Section Driver.

Context {Hook BinaryView : Type} {env : Environment Hook BinaryView}.

(** [self._function[i]] and [len(self.function)] are the disassembler's
    [LowLevelILFunction.__getitem__] and [__len__]; [None] stands for the
    [IndexError] of the former. *)
Variable getitem : LowLevelILFunction -> Z -> option expr.
Variable len : LowLevelILFunction -> Z.

(** What can stop a step: the [IndexError] of the instruction fetch, or
    whatever the visitor raised. *)
Inductive fault : Type :=
| IndexError
| Raised (e : exn).

Inductive step_outcome : Type :=
| Stepped
| Faulted (f : fault).

(** [execute_instruction]: fetch, increment, visit. *)
Definition execute_instruction (s : Emilator Hook BinaryView)
    : step_outcome * Emilator Hook BinaryView :=
  (* Execute the current IL instruction *)
  match getitem (_function s) (instr_index s) with
  | None => (Faulted IndexError, s)
  | Some instruction =>
      (* increment to next instruction (can be changed by instruction) *)
      let s := with_instr_index (instr_index s + 1) s in
      match visit instruction s with
      | (Ok _, s') => (Stepped, s')
      | (Raise e, s') => (Faulted (Raised e), s')
      end
  end.



(** [self._view.get_segment_at(addr)], reduced to the [end] of the segment
    found, the only attribute [_find_available_segment] reads. *)
Variable get_segment_at : BinaryView -> Z -> option Z.

(** The [while] loop of [_find_available_segment], run for at most [fuel]
    iterations from [current_address]: [None] when the loop is still
    running after that many, [Some new_segment] when it has ended. *)
Fixpoint find_available_loop (view : BinaryView) (max_address align_mask : Z)
    (size align : Z) (fuel : nat) (current_address : Z) : option (option Z) :=
  match fuel with
  | O => None
  | S fuel =>
      if current_address <? max_address - size then
        match get_segment_at view current_address with
        | Some segment_end =>
            find_available_loop view max_address align_mask size align fuel
              (Z.land (segment_end + align) align_mask)
        | None =>
            let segment_end := current_address + size - 1 in
            match get_segment_at view segment_end with
            | None => Some (Some current_address)
            | Some _ =>
                find_available_loop view max_address align_mask size align fuel
                  current_address
            end
        end
      else Some None
  end.

Definition _find_available_segment (size align : Z) (fuel : nat)
    (s : Emilator Hook BinaryView) : option (option Z) :=
  let bits := address_size (arch (_function s)) in
  let max_address := bit bits - 1 in
  let align_mask := bit bits - align in
  find_available_loop (_view s) max_address align_mask size align fuel 0.

End Driver.

(** ** A concrete machine for examples

    The register family of the aliasing examples: a full-width [R64] with
    the aliases [R32] (zero-extending), [R16], [R8] and [R8H] (no
    extension), a sign-extending byte alias, and a stack pointer. *)
Definition demo_regs : gmap string RegisterInfo :=
  list_to_map [
    ("R64", {| full_width_reg := "R64"; size := 8; offset := 0; extend := NoExtend |});
    ("R32", {| full_width_reg := "R64"; size := 4; offset := 0;
               extend := ZeroExtendToFullWidth |});
    ("R16", {| full_width_reg := "R64"; size := 2; offset := 0; extend := NoExtend |});
    ("R8", {| full_width_reg := "R64"; size := 1; offset := 0; extend := NoExtend |});
    ("R8H", {| full_width_reg := "R64"; size := 1; offset := 1; extend := NoExtend |});
    ("R8_signextend", {| full_width_reg := "R64"; size := 1; offset := 0;
                         extend := SignExtendToFullWidth |});
    ("SP", {| full_width_reg := "SP"; size := 8; offset := 0; extend := NoExtend |})
  ]%N.

Definition demo_arch : Architecture :=
  {| regs := demo_regs; stack_pointer := "SP"; endianness := LittleEndian;
     address_size := 8 |}.

Definition demo_function : LowLevelILFunction :=
  {| arch := demo_arch; instructions := [] |}.

(** A hook that records its call by raising a flag. *)
Inductive demo_hook : Type :=
| RaiseFlag (flag : Z).

#[global] Instance demo_env : Environment demo_hook unit := {|
  LLIL_REG_IS_TEMP := fun n => negb (Z.land n 0x80000000 =? 0);
  LLIL_GET_TEMP_REG_INDEX := fun r =>
    match r with
    | RegIndex i => Ok (Z.land i 0x7fffffff)
    | _ => Raise TypeError
    end;
  host := {| struct.host_little_endian := true; struct.host_sizeof_long := 8 |};
  get_function_at := fun _ _ => None;
  create_user_function := fun v _ => v;
  update_analysis_and_wait := fun v => v;
  call_hook := fun h s =>
    match h with
    | RaiseFlag f => (Ok tt, with_flags (<[f := PBool true]> (_flags s)) s)
    end
|}.

(** A fresh interpreter with no memory mapped. *)
Definition demo_emilator : Emilator demo_hook unit :=
  {| _function := demo_function; _view := tt; _regs := ∅; _flags := ∅;
     _memory := {| Memory.mem_address_size := 8; Memory.segments := [] |};
     _function_hooks := ∅; instr_index := 0; events := [] |}.

(** The same with [[0x1000, 0x3000)] mapped and zero-filled. *)
Definition demo_stack_memory : Memory.t :=
  {| Memory.mem_address_size := 8;
     Memory.segments :=
       [ {| Memory.seg_start := 0x1000; Memory.seg_length := 0x2000;
            Memory.seg_flags := 3; Memory.seg_data := repeat 0 (Z.to_nat 0x2000) |} ] |}.

(** The value or exception of a finished call. *)
Definition result_of {Hook BinaryView A : Type}
    (r : outcome A * Emilator Hook BinaryView) : outcome A := fst r.

(** The interpreter a finished call leaves behind. *)
Definition state_of {Hook BinaryView A : Type}
    (r : outcome A * Emilator Hook BinaryView) : Emilator Hook BinaryView := snd r.

(** The interpreter with [R64] set to [z]. *)
Definition demo_with_R64 (z : Z) : Emilator demo_hook unit :=
  state_of (set_register_value (RegName "R64") (PInt z) demo_emilator).

(** The interpreter with the stack mapped and [SP] set to [0x2000]. *)
Definition demo_with_stack : Emilator demo_hook unit :=
  with_memory demo_stack_memory
    (state_of (set_register_value (RegName "SP") (PInt 0x2000) demo_emilator)).

(** The interpreter with a hook registered for address [0x4000]. *)
Definition demo_with_hook : Emilator demo_hook unit :=
  state_of (register_function_hook 0x4000 (RaiseFlag 7) demo_emilator).

(** *** A concrete instruction stream and views *)

Definition demo_R64 : ILRegister := {| index := 0; name := "R64" |}.

(** [[SetReg(R64, 1), If(R64 == 1, true=3, false=5), Goto(4), Const,
    Goto(6), Ret]] *)
Definition demo_stream : list expr :=
  [ LLIL_SET_REG 8 demo_R64 (LLIL_CONST 8 1);
    LLIL_IF (LLIL_CMP_E 8 (LLIL_REG 8 demo_R64) (LLIL_CONST 8 1)) 3 5;
    LLIL_GOTO 4;
    LLIL_CONST 8 0;
    LLIL_GOTO 6;
    LLIL_RET (LLIL_CONST 8 0) ].

(** Indexing with an index out of range raises [IndexError]. *)
Definition demo_getitem (f : LowLevelILFunction) (i : Z) : option expr :=
  if (0 <=? i) && (i <? Z.of_nat (length (instructions f)))
  then instructions f !! Z.to_nat i else None.


(** The fresh interpreter on [demo_stream], at instruction [i]. *)
Definition demo_at (i : Z) : Emilator demo_hook unit :=
  with_instr_index i
    (with_function {| arch := demo_arch; instructions := demo_stream |}
       demo_emilator).

(** A view with one segment [[0, 0x1000)]. *)
Definition demo_view_low : unit -> Z -> option Z :=
  fun _ a => if (0 <=? a) && (a <? 0x1000) then Some 0x1000 else None.

(** A view with one segment [[0x800, 0x2000)]: the gap in front of it is
    smaller than a page. *)
Definition demo_view_gap : unit -> Z -> option Z :=
  fun _ a => if (0x800 <=? a) && (a <? 0x2000) then Some 0x2000 else None.

(** A view with one segment [[0x100, 0x200)]. *)
Definition demo_view_inside : unit -> Z -> option Z :=
  fun _ a => if (0x100 <=? a) && (a <? 0x200) then Some 0x200 else None.

(** ** Properties *)
Section Properties.

Context {Hook BinaryView : Type} {env : Environment Hook BinaryView}.

Implicit Types (s : Emilator Hook BinaryView) (v full : pyval).

(** Unfolds the monad so that a method applied to a state computes. *)
Ltac run_monad :=
  unfold subscript, store_reg, result_of, state_of in *;
  unfold mbind, mret, M_bind, M_ret, raise, gets, modify, lift in *.

(** *** Arithmetic of masks *)

Lemma bit_pow2 (n : N) : bit n = 2 ^ (8 * Z.of_N n).
Proof.
  unfold bit. rewrite Z.shiftl_1_l. f_equal. lia.
Qed.

Lemma land_mask (x : Z) (n : N) : Z.land x (bit n - 1) = x mod 2 ^ (8 * Z.of_N n).
Proof.
  rewrite bit_pow2, Z.sub_1_r, <- Z.ones_equiv. apply Z.land_ones. lia.
Qed.

(** The slice read by [get_register_value]:
    [(full & (mask << k)) >> k = (full >> k) mod 2^w]. *)
Lemma slice_shift (x : Z) (w : N) (k : Z) :
  0 <= k ->
  Z.shiftr (Z.land x (Z.shiftl (bit w - 1) k)) k
  = Z.shiftr x k mod 2 ^ (8 * Z.of_N w).
Proof.
  intros Hk.
  rewrite Z.shiftr_land, Z.shiftr_shiftl_l, Z.sub_diag, Z.shiftl_0_r by lia.
  apply land_mask.
Qed.

(** *** Which descriptor a [register] argument resolves to *)

Lemma set_register_value_architectural register n v :
  architectural_name register = Some n ->
  set_register_value register v = set_register_value_named n v.
Proof.
  destruct register as [i | r | m]; simpl; try discriminate.
  - destruct (LLIL_REG_IS_TEMP (index r)); [discriminate |].
    intros [= <-]. reflexivity.
  - intros [= <-]. reflexivity.
Qed.

Lemma get_register_value_architectural register n :
  architectural_name register = Some n ->
  get_register_value register = get_register_value_named n.
Proof.
  destruct register as [i | r | m]; simpl; try discriminate.
  - destruct (LLIL_REG_IS_TEMP (index r)); [discriminate |].
    intros [= <-]. reflexivity.
  - intros [= <-]. reflexivity.
Qed.

(** *** Reading registers *)

Lemma get_register_value_named_state n s :
  state_of (get_register_value_named n s) = s.
Proof.
  unfold get_register_value_named. run_monad. simpl.
  destruct (regs (arch (_function s)) !! n) as [info |]; simpl; [| reflexivity].
  destruct (_regs s !! _) as [full |]; simpl; [| reflexivity].
  destruct (decide (n = full_width_reg info)); reflexivity.
Qed.

Lemma get_temp_register_value_state key register s :
  state_of (get_temp_register_value key register s) = s.
Proof.
  unfold get_temp_register_value. run_monad. simpl.
  destruct (_regs s !! _) as [reg_value |]; simpl; [reflexivity |].
  destruct (LLIL_GET_TEMP_REG_INDEX register); reflexivity.
Qed.

(** C10: [get_register_value] reads only.  Whatever [register] is, and
    whether the call returns a value or raises, the interpreter it leaves
    behind is the one it was given: register store (temporaries included),
    flag store, memory image and instruction index are all unchanged. *)
Theorem get_register_value_pure register s :
  state_of (get_register_value register s) = s.
Proof.
  destruct register as [i | r | n]; simpl.
  - destruct (LLIL_REG_IS_TEMP i).
    + apply get_temp_register_value_state.
    + reflexivity.
  - destruct (LLIL_REG_IS_TEMP (index r)); simpl.
    + apply get_temp_register_value_state.
    + apply get_register_value_named_state.
  - apply get_register_value_named_state.
Qed.

(** C7: reading a sub-register returns the bit slice
    [[offset*8, offset*8 + size*8)] of the value stored for its full-width
    parent, shifted down to bit 0: the result is
    [(full >> offset*8) mod 2^(size*8)], that is, bit [i] of the result is
    bit [offset*8 + i] of the stored value for [i < size*8] and is clear
    above.  The state is not touched. *)
Theorem get_register_value_slice register n info full s :
  architectural_name register = Some n ->
  regs (arch (_function s)) !! n = Some info ->
  n <> full_width_reg info ->
  _regs s !! (inr (full_width_reg info) : regkey) = Some full ->
  let slice := Z.shiftr (as_int full) (8 * Z.of_N (offset info))
                 mod 2 ^ (8 * Z.of_N (size info)) in
  get_register_value register s = (Ok (PInt slice), s) /\
  (forall i, 0 <= i ->
     Z.testbit slice i =
     (i <? 8 * Z.of_N (size info)) &&
       Z.testbit (as_int full) (8 * Z.of_N (offset info) + i)).
Proof.
  intros Hname Hinfo Hsub Hfull slice. split.
  - rewrite (get_register_value_architectural _ _ Hname).
    unfold get_register_value_named. run_monad.
    rewrite Hinfo. simpl. rewrite Hfull.
    destruct (decide (n = full_width_reg info)) as [-> | _]; [congruence |].
    do 3 f_equal. subst slice.
    rewrite slice_shift by lia. do 2 f_equal. lia.
  - intros i Hi. subst slice.
    destruct (Z.ltb_spec i (8 * Z.of_N (size info))) as [Hlt | Hge]; simpl.
    + rewrite Z.mod_pow2_bits_low by lia.
      rewrite Z.shiftr_spec by lia. f_equal. lia.
    + apply Z.mod_pow2_bits_high. lia.
Qed.

(** *** Writing registers *)

(** C4: a write through a sub-register raises [UndefinedError] exactly when
    no value is stored for the parent's full-width register and the
    sub-register either has policy [NoExtend] or a non-zero offset; in every
    other case the write returns a value.  In particular a
    [ZeroExtendToFullWidth] sub-register at offset 0 can be written while the
    parent is still unset. *)
Theorem set_register_value_undefined_iff register n info parent v s :
  architectural_name register = Some n ->
  regs (arch (_function s)) !! n = Some info ->
  n <> full_width_reg info ->
  regs (arch (_function s)) !! full_width_reg info = Some parent ->
  let unset := _regs s !! (inr (full_width_reg parent) : regkey) = None in
  let partial := extend info = NoExtend \/ offset info <> 0%N in
  (result_of (set_register_value register v s) = Raise UndefinedError
     <-> unset /\ partial) /\
  (~ (unset /\ partial) ->
     exists w, result_of (set_register_value register v s) = Ok w) /\
  (extend info = ZeroExtendToFullWidth -> offset info = 0%N ->
     exists w, result_of (set_register_value register v s) = Ok w).
Proof.
  intros Hname Hinfo Hsub Hparent unset partial.
  rewrite (set_register_value_architectural _ _ _ Hname).
  unfold set_register_value_named. run_monad.
  rewrite Hinfo. simpl.
  destruct (decide (n = full_width_reg info)) as [-> | _]; [congruence |].
  rewrite Hparent. simpl.
  subst unset partial.
  destruct (_regs s !! _) as [full |] eqn:Hfull;
    destruct (extend info) eqn:Hext;
    destruct (decide (offset info = 0%N)) as [Hoff | Hoff];
    repeat first
      [ rewrite bool_decide_eq_true_2 by (assumption || reflexivity)
      | rewrite bool_decide_eq_false_2 by (assumption || discriminate) ];
    simpl;
    (split; [split | split]);
    try (intros; discriminate);
    try (intros; eexists; reflexivity);
    try tauto;
    try (intros [? [? | ?]]; congruence);
    try (intros H'; exfalso; apply H'; tauto);
    try (intros; congruence).
Qed.

Lemma testbit_mask (n : N) (i : Z) :
  0 <= i -> Z.testbit (bit n - 1) i = (i <? 8 * Z.of_N n).
Proof.
  intros Hi. rewrite bit_pow2, Z.sub_1_r, <- Z.ones_equiv.
  apply Z.testbit_ones_nonneg; lia.
Qed.

(** The value after [if value < 0: value = value + (1 << size * 8)], when
    the argument lies within one modulus of zero. *)
Lemma normalized_in_range (n : N) (z : Z) :
  - bit n <= z < bit n ->
  (if z <? 0 then z + bit n else z) = z mod 2 ^ (8 * Z.of_N n).
Proof.
  intros Hz. rewrite bit_pow2 in *.
  destruct (Z.ltb_spec z 0).
  - rewrite <- (Z.mod_small (z + _) (2 ^ (8 * Z.of_N n))) by lia.
    rewrite <- (Z.mul_1_l (2 ^ _)) at 1. apply Z.mod_add. lia.
  - symmetry. apply Z.mod_small. lia.
Qed.

Lemma as_int_normalized (n : N) v :
  as_int (if as_int v <? 0 then PInt (as_int v + bit n) else v)
  = if as_int v <? 0 then as_int v + bit n else as_int v.
Proof. destruct (as_int v <? 0); reflexivity. Qed.

(** A full-width register stores a negative value after one addition of
    the modulus, which is the unsigned residue when the value is not below
    [-2^(size*8)]. *)
Lemma set_register_value_full_width_negative register n info z s :
  architectural_name register = Some n ->
  regs (arch (_function s)) !! n = Some info ->
  n = full_width_reg info ->
  - bit (size info) <= z < 0 ->
  _regs (state_of (set_register_value register (PInt z) s)) !! (inr n : regkey)
  = Some (PInt (z mod 2 ^ (8 * Z.of_N (size info)))).
Proof.
  intros Hname Hinfo Hfull Hz.
  rewrite (set_register_value_architectural _ _ _ Hname).
  unfold set_register_value_named. run_monad.
  rewrite Hinfo. simpl.
  destruct (decide (n = full_width_reg info)) as [_ | Hne]; [| congruence].
  simpl. rewrite lookup_insert_eq.
  destruct (Z.ltb_spec z 0); [| lia].
  do 2 f_equal. rewrite <- (normalized_in_range (size info) z) by lia.
  destruct (Z.ltb_spec z 0); [reflexivity | lia].
Qed.



(** C6 (amended): a write of [v] through a [NoExtend] sub-register, where
    [-2^(size*8) <= v < 2^(size*8)], stores for the parent a value whose
    bits [[offset*8, offset*8 + size*8)] are those of [v] and whose other
    bits, within the parent's width, are those of the value stored before;
    nothing else in the interpreter changes. *)
Theorem set_register_value_NoExtend_slice register n info parent full v s :
  architectural_name register = Some n ->
  regs (arch (_function s)) !! n = Some info ->
  n <> full_width_reg info ->
  extend info = NoExtend ->
  regs (arch (_function s)) !! full_width_reg info = Some parent ->
  _regs s !! (inr (full_width_reg parent) : regkey) = Some full ->
  - bit (size info) <= as_int v < bit (size info) ->
  exists new,
    set_register_value register v s
    = (Ok (PInt new),
       with_regs (<[(inr (full_width_reg parent) : regkey) := PInt new]> (_regs s)) s) /\
    forall i, 0 <= i < 8 * Z.of_N (size parent) ->
      Z.testbit new i =
      if (8 * Z.of_N (offset info) <=? i)
         && (i <? 8 * Z.of_N (offset info) + 8 * Z.of_N (size info))
      then Z.testbit (as_int v) (i - 8 * Z.of_N (offset info))
      else Z.testbit (as_int full) i.
Proof.
  intros Hname Hinfo Hsub Hext Hparent Hfull Hv.
  rewrite (set_register_value_architectural _ _ _ Hname).
  unfold set_register_value_named. run_monad.
  rewrite Hinfo. simpl.
  destruct (decide (n = full_width_reg info)) as [-> | _]; [congruence |].
  rewrite Hparent. simpl. rewrite Hfull, Hext. simpl.
  eexists. split; [reflexivity |].
  intros i Hi.
  rewrite as_int_normalized, normalized_in_range by assumption.
  rewrite Z.lor_spec, Z.land_spec, Z.lxor_spec, !Z.shiftl_spec by lia.
  rewrite testbit_mask by lia.
  replace (i - Z.of_N (offset info) * 8) with (i - 8 * Z.of_N (offset info)) by lia.
  destruct (Z.leb_spec (8 * Z.of_N (offset info)) i) as [Hlo | Hlo]; simpl.
  - rewrite testbit_mask by lia.
    destruct (Z.ltb_spec i (8 * Z.of_N (offset info) + 8 * Z.of_N (size info)))
      as [Hhi | Hhi].
    + rewrite Z.mod_pow2_bits_low by lia.
      destruct (Z.ltb_spec i (8 * Z.of_N (size parent))); [| lia].
      destruct (Z.ltb_spec (i - 8 * Z.of_N (offset info)) (8 * Z.of_N (size info)));
        [| lia].
      simpl. rewrite andb_false_r. reflexivity.
    + rewrite Z.mod_pow2_bits_high by lia.
      destruct (Z.ltb_spec i (8 * Z.of_N (size parent))); [| lia].
      destruct (Z.ltb_spec (i - 8 * Z.of_N (offset info)) (8 * Z.of_N (size info)));
        [lia |].
      simpl. rewrite andb_true_r, orb_false_r. reflexivity.
  - rewrite (Z.testbit_neg_r _ (i - _)) by lia.
    rewrite (Z.testbit_neg_r _ (i - _)) by lia.
    destruct (Z.ltb_spec i (8 * Z.of_N (size parent))); [| lia].
    simpl. rewrite andb_true_r, orb_false_r. reflexivity.
Qed.

(** *** Arithmetic nodes *)

Lemma as_int_py_and a b : as_int (py_and a b) = Z.land (as_int a) (as_int b).
Proof. destruct a as [x | []], b as [y | []]; reflexivity. Qed.

Lemma as_int_py_or a b : as_int (py_or a b) = Z.lor (as_int a) (as_int b).
Proof. destruct a as [x | []], b as [y | []]; reflexivity. Qed.

Lemma as_int_py_xor a b : as_int (py_xor a b) = Z.lxor (as_int a) (as_int b).
Proof. destruct a as [x | []], b as [y | []]; reflexivity. Qed.

(** C2: with the operands evaluating to [a] and then [b], Add returns
    [(a + b) mod 2^(size*8)] and shift-left returns
    [(a << b) mod 2^(size*8)] (for a shift count Python accepts), while
    Subtract returns [a - b] and And, Or, Xor return [a & b], [a | b],
    [a ^ b], none of them reduced to the node's width; so Subtract is
    negative whenever [a < b]. *)
Theorem visit_masking_discipline size l r a b s s1 s2 :
  visit l s = (Ok a, s1) ->
  visit r s1 = (Ok b, s2) ->
  visit (LLIL_ADD size l r) s
    = (Ok (PInt ((as_int a + as_int b) mod 2 ^ (8 * Z.of_N size))), s2) /\
  (0 <= as_int b ->
   visit (LLIL_LSL size l r) s
     = (Ok (PInt (Z.shiftl (as_int a) (as_int b) mod 2 ^ (8 * Z.of_N size))), s2)) /\
  visit (LLIL_SUB size l r) s = (Ok (PInt (as_int a - as_int b)), s2) /\
  (exists w, visit (LLIL_AND size l r) s = (Ok w, s2) /\
             as_int w = Z.land (as_int a) (as_int b)) /\
  (exists w, visit (LLIL_OR size l r) s = (Ok w, s2) /\
             as_int w = Z.lor (as_int a) (as_int b)) /\
  (exists w, visit (LLIL_XOR size l r) s = (Ok w, s2) /\
             as_int w = Z.lxor (as_int a) (as_int b)) /\
  (as_int a < as_int b ->
   exists z, visit (LLIL_SUB size l r) s = (Ok (PInt z), s2) /\ z < 0).
Proof.
  intros Hl Hr.
  assert (Hsub : visit (LLIL_SUB size l r) s
                 = (Ok (PInt (as_int a - as_int b)), s2)).
  { cbn [visit]. run_monad. rewrite Hl, Hr. reflexivity. }
  split; [| split; [| split; [| split; [| split; [| split]]]]].
  - cbn [visit]. run_monad. rewrite Hl, Hr, land_mask. reflexivity.
  - intros Hb. cbn [visit]. run_monad. rewrite Hl, Hr.
    unfold py_lshift. destruct (Z.ltb_spec (as_int b) 0); [lia |].
    rewrite land_mask. reflexivity.
  - exact Hsub.
  - eexists. split; [| apply as_int_py_and].
    cbn [visit]. run_monad. rewrite Hl, Hr. reflexivity.
  - eexists. split; [| apply as_int_py_or].
    cbn [visit]. run_monad. rewrite Hl, Hr. reflexivity.
  - eexists. split; [| apply as_int_py_xor].
    cbn [visit]. run_monad. rewrite Hl, Hr. reflexivity.
  - intros Hlt. eexists. split; [exact Hsub | lia].
Qed.

(** *** Memory accessors *)

Lemma fmt_lookup_None (length : Z) :
  length <> 1 -> length <> 2 -> length <> 4 -> length <> 8 ->
  fmt !! length = None.
Proof.
  intros H1 H2 H4 H8. unfold fmt.
  rewrite !lookup_insert_ne by congruence. apply lookup_empty.
Qed.

Lemma valid_length_false (length : Z) :
  length <> 1 -> length <> 2 -> length <> 4 -> length <> 8 ->
  valid_length (Some length) = false.
Proof.
  intros H1 H2 H4 H8. unfold valid_length.
  rewrite !(proj2 (Z.eqb_neq _ _)) by assumption. reflexivity.
Qed.

(** C8 (amended): with a length outside {1, 2, 4, 8}, [read_memory] fails
    with its width error ([ValueError]) at every address, and
    [write_memory] of an integer fails at every address: with its width
    error ([KeyError]) when the address is mapped, with [MemoryAccessError]
    when it is not.  Neither call changes the interpreter. *)
Theorem memory_access_invalid_width addr length s :
  length <> 1 -> length <> 2 -> length <> 4 -> length <> 8 ->
  read_memory addr length s = (Raise ValueError, s) /\
  forall v,
    write_memory addr (DataInt v) (Some length) s
    = (Raise (if Memory.contains (_memory s) addr then KeyError
              else MemoryAccessError), s).
Proof.
  intros H1 H2 H4 H8. split.
  - unfold read_memory. rewrite fmt_lookup_None by assumption. reflexivity.
  - intros v. unfold write_memory. run_monad.
    rewrite (valid_length_false length) by assumption.
    destruct (Memory.contains (_memory s) addr); reflexivity.
Qed.

(** *** Calls *)

(** C9: when the target of a Call evaluates to an address with a
    registered hook, and that hook returns, the evaluation returns [True];
    the hook has been invoked once and that is the only call that left the
    interpreter (no [get_function_at], [create_user_function] or
    [update_analysis_and_wait]); and the interpreter is as the hook left it,
    so the Call itself touches neither the active instruction stream nor
    the instruction index. *)
Theorem visit_LLIL_CALL_hooked dest target hook s s1 s2 :
  visit dest s = (Ok target, s1) ->
  _function_hooks s1 !! as_int target = Some hook ->
  call_hook hook s1 = (Ok tt, s2) ->
  let s3 := state_of (visit (LLIL_CALL dest) s) in
  result_of (visit (LLIL_CALL dest) s) = Ok (PBool true) /\
  events s3 = events s1 ++ [HookInvoked (as_int target) hook] /\
  s3 = with_events (events s1 ++ [HookInvoked (as_int target) hook]) s2 /\
  _function s3 = _function s2 /\
  instr_index s3 = instr_index s2 /\
  _view s3 = _view s2.
Proof.
  intros Hdest Hhook Hcall.
  cbn [visit]. run_monad. rewrite Hdest. simpl. rewrite Hhook.
  unfold invoke_hook. rewrite Hcall. simpl.
  repeat split.
Qed.

(** *** Packing and unpacking *)

Lemma le_bytes_length (n : nat) (z : Z) : length (struct.le_bytes n z) = n.
Proof.
  revert z. induction n as [| k IH]; intros z; simpl; [reflexivity |].
  rewrite IH. reflexivity.
Qed.

Lemma le_value_le_bytes (n : nat) (z : Z) :
  struct.le_value (struct.le_bytes n z) = z mod 2 ^ (8 * Z.of_nat n).
Proof.
  revert z. induction n as [| k IH]; intros z.
  - simpl. rewrite Z.mod_1_r. reflexivity.
  - cbn [struct.le_bytes struct.le_value]. rewrite IH.
    replace (8 * Z.of_nat (S k)) with (8 + 8 * Z.of_nat k) by lia.
    rewrite Z.pow_add_r by lia. change (2 ^ 8) with 256.
    rewrite Z.rem_mul_r by (try apply Z.pow_pos_nonneg; lia).
    reflexivity.
Qed.

(** What [struct.pack] produced, [struct.unpack] reads back. *)
Lemma unpack_pack (h : struct.Host) (f : struct.format) (z : Z) (bs : list Z) :
  struct.pack h f z = Ok bs ->
  length bs = struct.calcsize h f /\ struct.unpack h f bs = Ok z.
Proof.
  unfold struct.pack, struct.unpack.
  destruct (Z.leb_spec 0 z) as [Hlo |]; simpl; [| discriminate].
  destruct (Z.ltb_spec z (2 ^ (8 * Z.of_nat (struct.calcsize h f)))) as [Hhi |];
    [| discriminate].
  intros [= <-].
  destruct (struct.is_little h f).
  - rewrite le_bytes_length, Nat.eqb_refl, le_value_le_bytes.
    rewrite Z.mod_small by lia. split; reflexivity.
  - rewrite length_rev, le_bytes_length, Nat.eqb_refl, rev_involutive.
    rewrite le_value_le_bytes, Z.mod_small by lia. split; reflexivity.
Qed.

(** *** The memory image: a write is read back *)

Lemma find_contains (m : Memory.t) (addr : Z) (seg : Memory.segment) :
  List.find (Memory.covers addr) (Memory.segments m) = Some seg ->
  Memory.contains m addr = true.
Proof.
  intros Hfind. apply find_some in Hfind as [Hin Hcov].
  unfold Memory.contains. apply existsb_exists. eauto.
Qed.

Lemma find_replace_segment (addr : Z) (seg seg' : Memory.segment)
    (l : list Memory.segment) :
  List.find (Memory.covers addr) l = Some seg ->
  Memory.covers addr seg' = true ->
  List.find (Memory.covers addr) (Memory.replace_segment addr seg' l) = Some seg'.
Proof.
  intros Hfind Hcov'. induction l as [| x rest IH]; simpl in *; [discriminate |].
  destruct (Memory.covers addr x) eqn:Hx; simpl.
  - rewrite Hcov'. reflexivity.
  - rewrite Hx. apply IH, Hfind.
Qed.

Lemma read_write (m m' : Memory.t) (addr : Z) (seg : Memory.segment)
    (data : list Z) :
  List.find (Memory.covers addr) (Memory.segments m) = Some seg ->
  (Z.to_nat (addr - Memory.seg_start seg) <= length (Memory.seg_data seg))%nat ->
  Memory.write m addr data = Ok m' ->
  Memory.contains m' addr = true /\
  Memory.read m' addr (Z.of_nat (length data)) = Ok data.
Proof.
  intros Hfind Hbuf. unfold Memory.write. rewrite Hfind.
  destruct (Z.leb_spec (addr + Z.of_nat (length data))
              (Memory.seg_start seg + Memory.seg_length seg)) as [Hend |];
    [| discriminate].
  intros [= <-].
  set (seg' := {| Memory.seg_start := Memory.seg_start seg;
                  Memory.seg_length := Memory.seg_length seg;
                  Memory.seg_flags := Memory.seg_flags seg;
                  Memory.seg_data := _ |}).
  assert (Hcov : Memory.covers addr seg' = true).
  { apply find_some in Hfind as [_ Hcov]. exact Hcov. }
  pose proof (find_replace_segment addr seg seg' _ Hfind Hcov) as Hfind'.
  split.
  - eapply find_contains. simpl. exact Hfind'.
  - unfold Memory.read. simpl. rewrite Hfind'. simpl.
    destruct (Z.leb_spec (addr + Z.of_nat (length data))
                (Memory.seg_start seg + Memory.seg_length seg)); [| lia].
    rewrite Nat2Z.id. f_equal.
    rewrite drop_app_length' by (rewrite length_take_le; lia).
    apply take_app_length.
Qed.

(** *** The stack *)

Lemma get_register_value_full_width n info full s :
  regs (arch (_function s)) !! n = Some info ->
  n = full_width_reg info ->
  _regs s !! (inr n : regkey) = Some full ->
  get_register_value (RegName n) s
  = (Ok (PInt (as_int full mod 2 ^ (8 * Z.of_N (size info)))), s).
Proof.
  intros Hinfo Hfw Hfull. simpl.
  unfold get_register_value_named. run_monad.
  rewrite Hinfo. simpl. rewrite <- Hfw, Hfull.
  destruct (decide (n = n)); [| congruence].
  rewrite land_mask. reflexivity.
Qed.

Lemma set_register_value_full_width n info z s :
  regs (arch (_function s)) !! n = Some info ->
  n = full_width_reg info ->
  0 <= z ->
  set_register_value (RegName n) (PInt z) s
  = (Ok (PInt z), with_regs (<[(inr n : regkey) := PInt z]> (_regs s)) s).
Proof.
  intros Hinfo Hfw Hz. simpl.
  unfold set_register_value_named. run_monad.
  rewrite Hinfo. simpl.
  destruct (Z.ltb_spec z 0); [lia |].
  destruct (decide (n = full_width_reg info)); [| congruence].
  reflexivity.
Qed.

Lemma write_memory_int addr v len c bs m' s :
  Memory.contains (_memory s) addr = true ->
  fmt !! len = Some c ->
  struct.pack host (pack_fmt_of (endianness (arch (_function s))) c) (as_int v)
    = Ok bs ->
  Memory.write (_memory s) addr bs = Ok m' ->
  write_memory addr (DataInt v) (Some len) s = (Ok (PBool true), with_memory m' s).
Proof.
  intros Hin Hfmt Hpack Hwrite.
  unfold write_memory. run_monad. rewrite Hin.
  assert (Hvalid : valid_length (Some len) = true).
  { unfold fmt in Hfmt. unfold valid_length.
    destruct (Z.eqb_spec len 1); [reflexivity |].
    destruct (Z.eqb_spec len 2); [reflexivity |].
    destruct (Z.eqb_spec len 4); [reflexivity |].
    destruct (Z.eqb_spec len 8); [reflexivity |].
    rewrite !lookup_insert_ne, lookup_empty in Hfmt by congruence.
    discriminate. }
  rewrite Hvalid. cbn [negb default from_option id].
  rewrite Hfmt, Hpack, Hwrite. reflexivity.
Qed.

Lemma read_memory_int addr len c bs z s :
  fmt !! len = Some c ->
  Memory.contains (_memory s) addr = true ->
  Memory.read (_memory s) addr len = Ok bs ->
  struct.unpack host (pack_fmt_of (endianness (arch (_function s))) c) bs = Ok z ->
  read_memory addr len s = (Ok (PInt z), s).
Proof.
  intros Hfmt Hin Hread Hunpack.
  unfold read_memory. rewrite Hfmt. run_monad.
  rewrite Hin. simpl. rewrite Hread, Hunpack. reflexivity.
Qed.

(** C5: Push followed by Pop of the same width is a round trip.  With the
    stack pointer a full-width register holding [a], the [size] bytes at
    [a] inside one mapped segment, and a pushed value that fits [size]
    bytes, evaluating [Push(size, src)] and then [Pop(size)] returns the
    value pushed and leaves the stack pointer at [a]: Push writes at [a]
    and then stores [a - size], Pop adds [size] back before it reads. *)
Theorem push_pop_roundtrip sz src v c a sp info seg s :
  let w := Z.of_N sz in
  visit src s = (Ok v, s) ->
  fmt !! w = Some c ->
  struct.calcsize host (pack_fmt_of (endianness (arch (_function s))) c)
    = N.to_nat sz ->
  0 <= as_int v < 2 ^ (8 * w) ->
  stack_pointer (arch (_function s)) = sp ->
  regs (arch (_function s)) !! sp = Some info ->
  sp = full_width_reg info ->
  _regs s !! (inr sp : regkey) = Some (PInt a) ->
  w <= a < bit (size info) ->
  List.find (Memory.covers a) (Memory.segments (_memory s)) = Some seg ->
  a + w <= Memory.seg_start seg + Memory.seg_length seg ->
  length (Memory.seg_data seg) = Z.to_nat (Memory.seg_length seg) ->
  let pushed := visit (LLIL_PUSH sz src) s in
  let popped := visit (LLIL_POP sz) (state_of pushed) in
  result_of pushed = Ok (PInt (a - w)) /\
  result_of popped = Ok (PInt (as_int v)) /\
  _regs (state_of popped) !! (inr sp : regkey) = Some (PInt a) /\
  result_of (get_register_value (RegName sp) (state_of popped)) = Ok (PInt a).
Proof.
  intros w Hsrc Hfmt Hsize Hv Hsp Hinfo Hfw Hreg Ha Hfind Hend Hbuf pushed popped.
  pose proof (find_some _ _ Hfind) as [_ Hcov].
  unfold Memory.covers in Hcov. apply andb_true_iff in Hcov as [Hlo Hhi].
  apply Z.leb_le in Hlo. apply Z.ltb_lt in Hhi.
  rewrite bit_pow2 in Ha.
  (* the bytes written by Push *)
  destruct (struct.pack host (pack_fmt_of (endianness (arch (_function s))) c)
              (as_int v)) as [bs | e] eqn:Hpack.
  2: { unfold struct.pack in Hpack. rewrite Hsize, N_nat_Z in Hpack.
       fold w in Hpack.
       destruct (Z.leb_spec 0 (as_int v)); [| lia].
       destruct (Z.ltb_spec (as_int v) (2 ^ (8 * w))); [| lia].
       discriminate. }
  pose proof (unpack_pack _ _ _ _ Hpack) as [Hlen Hunpack].
  rewrite Hsize in Hlen.
  assert (Hw : Z.of_nat (length bs) = w) by (rewrite Hlen; apply N_nat_Z).
  destruct (Memory.write (_memory s) a bs) as [m' | e] eqn:Hwrite.
  2: { unfold Memory.write in Hwrite. rewrite Hfind, Hw in Hwrite.
       destruct (Z.leb_spec (a + w) (Memory.seg_start seg + Memory.seg_length seg));
         [discriminate | lia]. }
  assert (Hoff : (Z.to_nat (a - Memory.seg_start seg)
                  <= length (Memory.seg_data seg))%nat) by lia.
  pose proof (read_write _ _ _ _ _ Hfind Hoff Hwrite) as [Hin' Hread].
  rewrite Hw in Hread.
  (* Push *)
  set (s1 := with_regs (<[(inr sp : regkey) := PInt (a - w)]> (_regs s))
               (with_memory m' s)).
  assert (Hpush : pushed = (Ok (PInt (a - w)), s1)).
  { subst pushed. cbn [visit]. run_monad. rewrite Hsp, Hsrc.
    cbn beta iota zeta.
    rewrite (get_register_value_full_width sp info (PInt a) s Hinfo Hfw Hreg).
    cbn beta iota zeta. cbn [as_int]. rewrite (Z.mod_small a) by lia. fold w.
    rewrite (write_memory_int a v w c bs m' s
               (find_contains _ _ _ Hfind) Hfmt Hpack Hwrite).
    cbn beta iota zeta.
    rewrite (set_register_value_full_width sp info (a - w) (with_memory m' s)
               Hinfo Hfw) by lia.
    reflexivity. }
  (* Pop *)
  set (s2 := with_regs (<[(inr sp : regkey) := PInt a]> (_regs s1)) s1).
  assert (Hpop : popped = (Ok (PInt (as_int v)), s2)).
  { subst popped. rewrite Hpush. cbn [visit state_of snd]. run_monad.
    change (stack_pointer (arch (_function s1)))
      with (stack_pointer (arch (_function s))).
    rewrite Hsp. cbn beta iota zeta.
    rewrite (get_register_value_full_width sp info (PInt (a - w)) s1 Hinfo Hfw)
      by (apply lookup_insert_eq).
    cbn beta iota zeta. cbn [as_int]. rewrite (Z.mod_small (a - w)) by lia.
    replace (a - w + Z.of_N sz) with a by (subst w; lia). fold w.
    rewrite (read_memory_int a w c bs (as_int v) s1 Hfmt Hin' Hread Hunpack).
    cbn beta iota zeta.
    rewrite (set_register_value_full_width sp info a s1 Hinfo Hfw) by lia.
    reflexivity. }
  rewrite Hpush, Hpop. cbn [result_of state_of fst snd].
  assert (Hsp2 : _regs s2 !! (inr sp : regkey) = Some (PInt a))
    by (apply lookup_insert_eq).
  repeat split; try assumption.
  rewrite (get_register_value_full_width sp info (PInt a) s2 Hinfo Hfw Hsp2).
  cbn [as_int fst]. rewrite Z.mod_small by lia. reflexivity.
Qed.

End Properties.

(** ** The properties on the concrete machine *)

(** Discharges a side condition that holds by evaluation. *)
Ltac by_evaluation :=
  first [ reflexivity
        | vm_compute; reflexivity
        | vm_compute; discriminate
        | vm_compute; split; [discriminate | reflexivity] ].

(** C7 on the register family: with [R64 = 0x1122334455667788], [R32]
    reads [0x55667788], [R16] reads [0x7788] and [R8] reads [0x88]. *)
Lemma get_register_value_slice_demo :
  let s1 := demo_with_R64 0x1122334455667788 in
  get_register_value (RegName "R32") s1 = (Ok (PInt 0x55667788), s1) /\
  get_register_value (RegName "R16") s1 = (Ok (PInt 0x7788), s1) /\
  get_register_value (RegName "R8") s1 = (Ok (PInt 0x88), s1).
Proof.
  intros s1. split; [| split].
  - refine (proj1 (get_register_value_slice (RegName "R32") "R32"
             {| full_width_reg := "R64"; size := 4; offset := 0;
                extend := ZeroExtendToFullWidth |}
             (PInt 0x1122334455667788) s1 _ _ _ _)); by_evaluation.
  - refine (proj1 (get_register_value_slice (RegName "R16") "R16"
             {| full_width_reg := "R64"; size := 2; offset := 0;
                extend := NoExtend |}
             (PInt 0x1122334455667788) s1 _ _ _ _)); by_evaluation.
  - refine (proj1 (get_register_value_slice (RegName "R8") "R8"
             {| full_width_reg := "R64"; size := 1; offset := 0;
                extend := NoExtend |}
             (PInt 0x1122334455667788) s1 _ _ _ _)); by_evaluation.
Defined.

(** C4 on the register family, with [R64] unset: a write through [R32]
    (zero-extending, offset 0) returns, a write through [R16] ([NoExtend])
    raises [UndefinedError]. *)
Lemma set_register_value_undefined_iff_demo :
  (exists w, result_of (set_register_value (RegName "R32") (PInt 0xAABBCCDD)
                          demo_emilator) = Ok w) /\
  result_of (set_register_value (RegName "R16") (PInt 0x1234) demo_emilator)
  = Raise UndefinedError.
Proof.
  split.
  - refine (proj2 (proj2 (set_register_value_undefined_iff (RegName "R32") "R32"
             {| full_width_reg := "R64"; size := 4; offset := 0;
                extend := ZeroExtendToFullWidth |}
             {| full_width_reg := "R64"; size := 8; offset := 0;
                extend := NoExtend |}
             (PInt 0xAABBCCDD) demo_emilator _ _ _ _)) _ _); by_evaluation.
  - refine (proj2 (proj1 (set_register_value_undefined_iff (RegName "R16") "R16"
             {| full_width_reg := "R64"; size := 2; offset := 0;
                extend := NoExtend |}
             {| full_width_reg := "R64"; size := 8; offset := 0;
                extend := NoExtend |}
             (PInt 0x1234) demo_emilator _ _ _ _)) (conj _ (or_introl _)));
      by_evaluation.
Defined.

(** C2 on one-byte nodes with operands [0x1F0] and [0x1F8]: Add and
    shift-left are cut to one byte, Subtract is negative, And, Or and Xor
    keep the bits above the byte. *)
Lemma visit_masking_discipline_demo :
  let l := LLIL_CONST 1 0x1F0 in
  let r := LLIL_CONST 1 0x1F8 in
  let s := demo_emilator in
  visit (LLIL_ADD 1 l r) s = (Ok (PInt 0xE8), s) /\
  visit (LLIL_LSL 1 l r) s = (Ok (PInt 0), s) /\
  visit (LLIL_SUB 1 l r) s = (Ok (PInt (-8)), s) /\
  (exists w, visit (LLIL_AND 1 l r) s = (Ok w, s) /\ as_int w = 0x1F0) /\
  (exists w, visit (LLIL_OR 1 l r) s = (Ok w, s) /\ as_int w = 0x1F8) /\
  (exists w, visit (LLIL_XOR 1 l r) s = (Ok w, s) /\ as_int w = 0x08).
Proof.
  intros l r s.
  pose proof (visit_masking_discipline 1 l r (PInt 0x1F0) (PInt 0x1F8) s s s
                eq_refl eq_refl)
    as (Hadd & Hlsl & Hsub & Hand & Hor & Hxor & _).
  split; [exact Hadd |].
  split; [apply Hlsl; by_evaluation |].
  split; [exact Hsub |].
  split; [exact Hand |].
  split; [exact Hor | exact Hxor].
Defined.

(** C6 on the register family: with [R64 = 0xFFFFFFFFFFFFFFFF], a write of
    [0] through [R16] clears bit 0 and keeps bit 16 of the parent. *)
Lemma set_register_value_NoExtend_slice_demo :
  let s0 := demo_with_R64 0xFFFFFFFFFFFFFFFF in
  exists new,
    set_register_value (RegName "R16") (PInt 0) s0
    = (Ok (PInt new),
       with_regs (<[(inr "R64" : regkey) := PInt new]> (_regs s0)) s0) /\
    Z.testbit new 0 = false /\
    Z.testbit new 16 = true.
Proof.
  intros s0.
  destruct (set_register_value_NoExtend_slice (RegName "R16") "R16"
              {| full_width_reg := "R64"; size := 2; offset := 0;
                 extend := NoExtend |}
              {| full_width_reg := "R64"; size := 8; offset := 0;
                 extend := NoExtend |}
              (PInt 0xFFFFFFFFFFFFFFFF) (PInt 0) s0)
    as (new & Hset & Hbits); try by_evaluation.
  exists new. split; [exact Hset |].
  split.
  - rewrite (Hbits 0) by by_evaluation. reflexivity.
  - rewrite (Hbits 16) by by_evaluation. reflexivity.
Defined.

(** The same write, evaluated: [get(R64)] then yields
    [0xFFFFFFFFFFFF0000]. *)
Example set_register_value_NoExtend_R16 :
  result_of (get_register_value (RegName "R64")
               (state_of (set_register_value (RegName "R16") (PInt 0)
                            (demo_with_R64 0xFFFFFFFFFFFFFFFF))))
  = Ok (PInt 0xFFFFFFFFFFFF0000).
Proof. vm_compute. reflexivity. Qed.

(** C6 as stated fails for a value wider than the sub-register: with
    [R64 = 0], writing [0x10000] through the 2-byte [R16] sets bit 16 of the
    parent, a bit outside [[0, 16)]. *)
Lemma set_register_value_NoExtend_wide_value :
  let s0 := demo_with_R64 0 in
  let s1 := state_of (set_register_value (RegName "R16") (PInt 0x10000) s0) in
  exists old new,
    _regs s0 !! (inr "R64" : regkey) = Some (PInt old) /\
    _regs s1 !! (inr "R64" : regkey) = Some (PInt new) /\
    ~ (forall i, 16 <= i < 64 -> Z.testbit new i = Z.testbit old i).
Proof.
  intros s0 s1. exists 0, 0x10000.
  split; [vm_compute; reflexivity |].
  split; [vm_compute; reflexivity |].
  intros H. specialize (H 16 ltac:(lia)). vm_compute in H. discriminate.
Qed.

(** C8 on the concrete machine: length 3 is rejected by both accessors, and
    the write at the unmapped address 0 reports the address. *)
Lemma memory_access_invalid_width_demo :
  read_memory 0 3 demo_emilator = (Raise ValueError, demo_emilator) /\
  write_memory 0 (DataInt (PInt 5)) (Some 3) demo_emilator
  = (Raise MemoryAccessError, demo_emilator) /\
  write_memory 0x1000 (DataInt (PInt 5)) (Some 3) demo_with_stack
  = (Raise KeyError, demo_with_stack).
Proof.
  split; [| split].
  - refine (proj1 (memory_access_invalid_width 0 3 demo_emilator _ _ _ _));
      by_evaluation.
  - refine (proj2 (memory_access_invalid_width 0 3 demo_emilator _ _ _ _)
              (PInt 5)); by_evaluation.
  - refine (proj2 (memory_access_invalid_width 0x1000 3 demo_with_stack _ _ _ _)
              (PInt 5)); by_evaluation.
Defined.

(** C8 as stated fails: a [write_memory] with length 3 at an unmapped
    address raises [MemoryAccessError], which is not a width error, and a
    [write_memory] of a byte string with length 3 succeeds. *)
Lemma write_memory_invalid_width_other_outcomes :
  valid_length (Some 3) = false /\
  ~ (exists e, result_of (write_memory 0 (DataInt (PInt 5)) (Some 3) demo_emilator)
               = Raise e /\ invalid_width_error e = true) /\
  result_of (write_memory 0x1000 (DataBytes [1; 2; 3]) (Some 3) demo_with_stack)
  = Ok (PBool true).
Proof.
  split; [reflexivity |]. split.
  - intros (e & He & Hwidth). vm_compute in He.
    injection He as <-. discriminate.
  - vm_compute. reflexivity.
Qed.

(** C9 on the concrete machine: [Call(Const(0x4000))] with a hook
    registered for [0x4000]. *)
Lemma visit_LLIL_CALL_hooked_demo :
  let s := demo_with_hook in
  let s3 := state_of (visit (LLIL_CALL (LLIL_CONST 8 0x4000)) s) in
  result_of (visit (LLIL_CALL (LLIL_CONST 8 0x4000)) s) = Ok (PBool true) /\
  events s3 = [HookInvoked 0x4000 (RaiseFlag 7)] /\
  _function s3 = _function s /\
  instr_index s3 = instr_index s /\
  _flags s3 !! 7 = Some (PBool true).
Proof.
  intros s s3.
  pose proof (visit_LLIL_CALL_hooked (LLIL_CONST 8 0x4000) (PInt 0x4000)
                (RaiseFlag 7) s s
                (with_flags (<[7 := PBool true]> (_flags s)) s)
                eq_refl ltac:(vm_compute; reflexivity) eq_refl)
    as (Hres & Hev & Hs3 & Hfun & Hidx & _).
  split; [exact Hres |].
  split; [exact Hev |].
  split; [exact Hfun |].
  split; [exact Hidx |].
  vm_compute. reflexivity.
Defined.

(** C5 on the concrete machine: [SP = 0x2000], [[0x1000, 0x3000)] mapped,
    [Push(8, 0xDEADBEEF)] then [Pop(8)]. *)
Lemma push_pop_roundtrip_demo :
  let pushed := visit (LLIL_PUSH 8 (LLIL_CONST 8 0xDEADBEEF)) demo_with_stack in
  let popped := visit (LLIL_POP 8) (state_of pushed) in
  result_of pushed = Ok (PInt 0x1FF8) /\
  result_of popped = Ok (PInt 0xDEADBEEF) /\
  _regs (state_of popped) !! (inr "SP" : regkey) = Some (PInt 0x2000) /\
  result_of (get_register_value (RegName "SP") (state_of popped))
  = Ok (PInt 0x2000).
Proof.
  refine (push_pop_roundtrip 8 (LLIL_CONST 8 0xDEADBEEF) (PInt 0xDEADBEEF)
            struct.Q 0x2000 "SP"
            {| full_width_reg := "SP"; size := 8; offset := 0; extend := NoExtend |}
            {| Memory.seg_start := 0x1000; Memory.seg_length := 0x2000;
               Memory.seg_flags := 3;
               Memory.seg_data := repeat 0 (Z.to_nat 0x2000) |}
            demo_with_stack _ _ _ _ _ _ _ _ _ _ _ _);
    try by_evaluation.
Defined.

(** C1 fails on the code: the [SignExtendToFullWidth] branch computes
    [2^(parent bits) - value], so writing [0xFF] through the sign-extending
    byte alias makes [R64] read [0xFFFFFFFFFFFFFF01], where sign extension
    gives [0xFFFFFFFFFFFFFFFF] (and the module's own [sign_extend] gives
    [-1]). *)
Theorem set_register_value_sign_extend_0xFF :
  let s1 := state_of (set_register_value (RegName "R8_signextend") (PInt 0xFF)
                        demo_emilator) in
  result_of (get_register_value (RegName "R64") s1)
  = Ok (PInt 0xFFFFFFFFFFFFFF01) /\
  sign_extend 0xFF 8 = Ok (-1) /\
  (-1) mod 2 ^ 64 = 0xFFFFFFFFFFFFFFFF.
Proof. vm_compute. repeat split; reflexivity. Qed.

(** C3 fails on the code below [-2^(size*8)]: one addition of the modulus
    leaves [-2^64 - 1] at [-1] in the 8-byte [R64], where the residue is
    [2^64 - 1]. *)
Theorem set_register_value_far_negative :
  _regs (demo_with_R64 (- 2 ^ 64 - 1)) !! (inr "R64" : regkey) = Some (PInt (-1)) /\
  (- 2 ^ 64 - 1) mod 2 ^ (8 * Z.of_N 8) = 2 ^ 64 - 1.
Proof. vm_compute. split; reflexivity. Qed.

(** ** Further properties of the register file *)
Section RegisterFile.

Context {Hook BinaryView : Type} {env : Environment Hook BinaryView}.

Implicit Types (s : Emilator Hook BinaryView) (v : pyval).

Ltac run_monad :=
  unfold subscript, store_reg, result_of, state_of in *;
  unfold mbind, mret, M_bind, M_ret, raise, gets, modify, lift in *.

(** A temporary holds exactly what was put in it: the write stores the
    value as given, negative or oversized values included, and the read
    returns it, whether the temporary is named by a bare index or by an
    [ILRegister]. *)
Theorem temporary_register_roundtrip register key v s :
  temporary_key register = Some key ->
  let s' := with_regs (<[(inl key : regkey) := v]> (_regs s)) s in
  set_register_value register v s = (Ok v, s') /\
  get_register_value register s' = (Ok v, s').
Proof.
  intros Hkey s'.
  destruct register as [i | r | n]; simpl in Hkey; [| | discriminate].
  - destruct (LLIL_REG_IS_TEMP i) eqn:Htemp; [| discriminate].
    injection Hkey as <-. simpl. rewrite Htemp. split; [reflexivity |].
    unfold get_temp_register_value. run_monad. subst s'. simpl.
    rewrite lookup_insert_eq. reflexivity.
  - destruct (LLIL_REG_IS_TEMP (index r)) eqn:Htemp; [| discriminate].
    injection Hkey as <-. simpl. rewrite Htemp. simpl. split; [reflexivity |].
    unfold get_temp_register_value. run_monad. subst s'. simpl.
    rewrite lookup_insert_eq. reflexivity.
Qed.

(** Writing any integer to a full-width register and reading the register
    back gives the integer modulo [2^(size*8)]: what the write does not
    normalise (values below [-2^(size*8)] or above the width), the mask of
    the read does. *)
Theorem full_width_register_roundtrip register n info v s :
  architectural_name register = Some n ->
  regs (arch (_function s)) !! n = Some info ->
  n = full_width_reg info ->
  result_of (get_register_value register
               (state_of (set_register_value register v s)))
  = Ok (PInt (as_int v mod 2 ^ (8 * Z.of_N (size info)))).
Proof.
  intros Hname Hinfo Hfw.
  rewrite (set_register_value_architectural _ _ _ Hname).
  rewrite (get_register_value_architectural _ _ Hname).
  unfold set_register_value_named, get_register_value_named. run_monad.
  rewrite Hinfo. simpl.
  destruct (decide (n = full_width_reg info)) as [_ | Hne]; [| congruence].
  simpl. rewrite Hinfo. simpl. rewrite <- Hfw, lookup_insert_eq.
  destruct (decide (n = n)); [| congruence]. simpl.
  rewrite as_int_normalized, land_mask.
  destruct (as_int v <? 0); [| reflexivity].
  rewrite bit_pow2. do 2 f_equal.
  rewrite <- (Z.mul_1_l (2 ^ _)) at 1. apply Z.mod_add.
  apply Z.pow_nonzero; lia.
Qed.

(** A write of a non-negative value through a [ZeroExtendToFullWidth]
    sub-register, when it does not raise (offset 0, or the parent already
    set), stores the value itself for the parent: whatever the parent held
    is discarded, the offset plays no part, and the parent then reads the
    value modulo its own width. *)
Theorem zero_extend_write_replaces_parent register n info parent v s :
  architectural_name register = Some n ->
  regs (arch (_function s)) !! n = Some info ->
  n <> full_width_reg info ->
  extend info = ZeroExtendToFullWidth ->
  regs (arch (_function s)) !! full_width_reg info = Some parent ->
  full_width_reg parent = full_width_reg info ->
  offset info = 0%N \/ is_Some (_regs s !! (inr (full_width_reg info) : regkey)) ->
  0 <= as_int v ->
  let s' := with_regs (<[(inr (full_width_reg info) : regkey) := v]> (_regs s)) s in
  set_register_value register v s = (Ok v, s') /\
  get_register_value (RegName (full_width_reg info)) s'
  = (Ok (PInt (as_int v mod 2 ^ (8 * Z.of_N (size parent)))), s').
Proof.
  intros Hname Hinfo Hsub Hext Hparent Hroot Hok Hv s'.
  assert (Hset : set_register_value register v s = (Ok v, s')).
  { rewrite (set_register_value_architectural _ _ _ Hname).
    unfold set_register_value_named. run_monad.
    rewrite Hinfo. simpl.
    destruct (decide (n = full_width_reg info)) as [-> | _]; [congruence |].
    rewrite Hparent. simpl. rewrite Hroot, Hext.
    destruct (Z.ltb_spec (as_int v) 0); [lia |].
    destruct Hok as [-> | [full Hfull]].
    - rewrite andb_false_r. simpl. reflexivity.
    - rewrite Hfull. simpl. reflexivity. }
  split; [exact Hset |].
  simpl. unfold get_register_value_named. run_monad.
  change (regs (arch (_function s'))) with (regs (arch (_function s))).
  rewrite Hparent. simpl. rewrite Hroot. subst s'. simpl.
  rewrite lookup_insert_eq.
  destruct (decide (full_width_reg info = full_width_reg info)); [| congruence].
  rewrite land_mask. reflexivity.
Qed.

(** Reading back the slice that a [NoExtend] write has merged in. *)
Lemma merge_slice_read (full z : Z) (w p : N) (k : Z) :
  0 <= k ->
  k + 8 * Z.of_N w <= 8 * Z.of_N p ->
  Z.shiftr
    (Z.land
       (Z.lor (Z.land full (Z.lxor (bit p - 1) (Z.shiftl (bit w - 1) k)))
              (Z.shiftl (z mod 2 ^ (8 * Z.of_N w)) k))
       (Z.shiftl (bit w - 1) k)) k
  = z mod 2 ^ (8 * Z.of_N w).
Proof.
  intros Hk Hfit. rewrite slice_shift by assumption.
  apply Z.bits_inj'. intros i Hi.
  destruct (Z.ltb_spec i (8 * Z.of_N w)) as [Hlt | Hge].
  - rewrite Z.mod_pow2_bits_low by lia.
    rewrite Z.shiftr_spec, Z.lor_spec, Z.land_spec, Z.lxor_spec by lia.
    rewrite !Z.shiftl_spec by lia.
    rewrite !testbit_mask by lia.
    replace (i + k - k) with i by lia.
    destruct (Z.ltb_spec (i + k) (8 * Z.of_N p)); [| lia].
    destruct (Z.ltb_spec i (8 * Z.of_N w)); [| lia].
    simpl. rewrite andb_false_r. reflexivity.
  - rewrite !Z.mod_pow2_bits_high by lia. reflexivity.
Qed.

(** A value written through a [NoExtend] sub-register is read back through
    the same sub-register, modulo [2^(size*8)], when it lies within one
    modulus of zero and the sub-register lies inside its parent. *)
Theorem no_extend_register_roundtrip register n info parent full v s :
  architectural_name register = Some n ->
  regs (arch (_function s)) !! n = Some info ->
  n <> full_width_reg info ->
  extend info = NoExtend ->
  regs (arch (_function s)) !! full_width_reg info = Some parent ->
  full_width_reg parent = full_width_reg info ->
  _regs s !! (inr (full_width_reg info) : regkey) = Some full ->
  (offset info + size info <= size parent)%N ->
  - bit (size info) <= as_int v < bit (size info) ->
  result_of (get_register_value register
               (state_of (set_register_value register v s)))
  = Ok (PInt (as_int v mod 2 ^ (8 * Z.of_N (size info)))).
Proof.
  intros Hname Hinfo Hsub Hext Hparent Hroot Hfull Hfit Hv.
  rewrite (set_register_value_architectural _ _ _ Hname).
  rewrite (get_register_value_architectural _ _ Hname).
  unfold set_register_value_named, get_register_value_named. run_monad.
  rewrite Hinfo. simpl.
  destruct (decide (n = full_width_reg info)) as [-> | _]; [congruence |].
  rewrite Hparent. simpl. rewrite Hroot, Hfull, Hext. simpl.
  rewrite Hinfo. simpl. rewrite lookup_insert_eq.
  destruct (decide (n = full_width_reg info)) as [-> | _]; [congruence |].
  simpl. rewrite as_int_normalized, normalized_in_range by assumption.
  rewrite merge_slice_read by lia. reflexivity.
Qed.

(** The interpreter a register write leaves behind: the one it was given,
    possibly with one entry of [_regs] replaced. *)
Lemma set_register_value_named_state n info parent v s :
  regs (arch (_function s)) !! n = Some info ->
  regs (arch (_function s)) !! full_width_reg info = Some parent ->
  full_width_reg parent = full_width_reg info ->
  let s' := state_of (set_register_value_named n v s) in
  s' = s \/
  exists x, s' = with_regs (<[(inr (full_width_reg info) : regkey) := x]> (_regs s)) s.
Proof.
  intros Hinfo Hparent Hroot.
  unfold set_register_value_named. run_monad.
  rewrite Hinfo. simpl.
  destruct (decide (n = full_width_reg info)) as [Heq | _].
  - right. eexists. simpl. rewrite <- Heq. reflexivity.
  - rewrite Hparent. simpl. rewrite Hroot.
    destruct (_regs s !! _) as [full |]; simpl;
      destruct (extend info), (bool_decide (offset info = 0%N)); simpl;
      first [left; reflexivity | right; eexists; reflexivity].
Qed.

(** What a read of a named register returns depends on the architecture
    and on the entry of its full-width register only. *)
Lemma get_register_value_named_ext n info s s' :
  regs (arch (_function s)) !! n = Some info ->
  arch (_function s') = arch (_function s) ->
  _regs s' !! (inr (full_width_reg info) : regkey)
  = _regs s !! (inr (full_width_reg info) : regkey) ->
  result_of (get_register_value_named n s')
  = result_of (get_register_value_named n s).
Proof.
  intros Hinfo Harch Hentry.
  unfold get_register_value_named. run_monad.
  rewrite Harch, Hinfo. simpl. rewrite Hentry.
  destruct (_regs s !! _) as [full |]; simpl; [| reflexivity].
  destruct (decide (n = full_width_reg info)); reflexivity.
Qed.

(** A write to an architectural register touches nothing but the [_regs]
    entry of its full-width register: flags, memory, hooks, the active
    function and the instruction index stay, every other entry of [_regs]
    stays (temporaries included), and a register of another family reads
    as before. *)
Theorem set_register_value_frame register n info parent v s :
  architectural_name register = Some n ->
  regs (arch (_function s)) !! n = Some info ->
  regs (arch (_function s)) !! full_width_reg info = Some parent ->
  full_width_reg parent = full_width_reg info ->
  let s' := state_of (set_register_value register v s) in
  s' = with_regs (_regs s') s /\
  (forall key : regkey,
     key <> inr (full_width_reg info) -> _regs s' !! key = _regs s !! key) /\
  (forall register' n' info',
     architectural_name register' = Some n' ->
     regs (arch (_function s)) !! n' = Some info' ->
     full_width_reg info' <> full_width_reg info ->
     result_of (get_register_value register' s')
     = result_of (get_register_value register' s)).
Proof.
  intros Hname Hinfo Hparent Hroot s'. subst s'.
  rewrite (set_register_value_architectural _ _ _ Hname).
  pose proof (set_register_value_named_state n info parent v s
                Hinfo Hparent Hroot) as Hstate.
  cbv zeta in Hstate.
  set (s' := state_of (set_register_value_named n v s)) in *.
  assert (Hother : forall key : regkey,
             key <> inr (full_width_reg info) ->
             _regs s' !! key = _regs s !! key).
  { intros key Hkey. destruct Hstate as [-> | [x ->]]; [reflexivity |].
    simpl. apply lookup_insert_ne. congruence. }
  split; [| split].
  - destruct Hstate as [-> | [x ->]]; [destruct s |]; reflexivity.
  - exact Hother.
  - intros register' n' info' Hname' Hinfo' Hfamily.
    rewrite (get_register_value_architectural _ _ Hname').
    apply (get_register_value_named_ext n' info' s s' Hinfo').
    + destruct Hstate as [-> | [x ->]]; reflexivity.
    + apply Hother. congruence.
Qed.

(** When a read of an architectural register returns: exactly when the
    name is in [arch.regs] and [_regs] has an entry for its full-width
    register.  An unknown name raises [KeyError], a known one without
    entry [UndefinedError]. *)
Theorem get_register_value_defined_iff register n s :
  architectural_name register = Some n ->
  ((exists w, result_of (get_register_value register s) = Ok w) <->
   (exists info, regs (arch (_function s)) !! n = Some info /\
                 is_Some (_regs s !! (inr (full_width_reg info) : regkey)))) /\
  (regs (arch (_function s)) !! n = None ->
   result_of (get_register_value register s) = Raise KeyError) /\
  (forall info,
     regs (arch (_function s)) !! n = Some info ->
     _regs s !! (inr (full_width_reg info) : regkey) = None ->
     result_of (get_register_value register s) = Raise UndefinedError).
Proof.
  intros Hname.
  rewrite (get_register_value_architectural _ _ Hname).
  unfold get_register_value_named. run_monad.
  destruct (regs (arch (_function s)) !! n) as [info |] eqn:Hinfo; simpl.
  - destruct (_regs s !! _) as [full |] eqn:Hfull; simpl.
    + split; [| split].
      * split.
        -- intros _. exists info. split; [reflexivity |]. rewrite Hfull. eauto.
        -- intros _. destruct (decide (n = full_width_reg info)); eexists; reflexivity.
      * discriminate.
      * intros info' [= <-]. rewrite Hfull. discriminate.
    + split; [| split].
      * split.
        -- intros [w Hw]. discriminate.
        -- intros (info' & [= <-] & [x Hx]). rewrite Hfull in Hx. discriminate.
      * discriminate.
      * reflexivity.
  - split; [| split].
    + split.
      * intros [w Hw]. discriminate.
      * intros (info' & Hinfo' & _). discriminate.
    + reflexivity.
    + discriminate.
Qed.

End RegisterFile.

(** ** Further properties of the visitor *)
Section Visitor.

Context {Hook BinaryView : Type} {env : Environment Hook BinaryView}.

Implicit Types (s : Emilator Hook BinaryView) (v : pyval).

Ltac run_monad :=
  unfold subscript, store_reg, result_of, state_of in *;
  unfold mbind, mret, M_bind, M_ret, raise, gets, modify, lift in *.

(** *** Sign extension *)

(** [x & 2^k] is bit [k] of [x], in place. *)
Lemma land_pow2 (x k : Z) :
  0 <= k -> Z.land x (2 ^ k) = 2 ^ k * ((x / 2 ^ k) mod 2).
Proof.
  intros Hk.
  rewrite <- Z.shiftr_div_pow2, Z.mul_comm, <- Z.shiftl_mul_pow2 by lia.
  change 2 with (2 ^ 1) at 2. rewrite <- Z.land_ones by lia.
  apply Z.bits_inj'. intros i Hi.
  rewrite Z.land_spec, Z.pow2_bits_eqb by lia.
  destruct (Z.ltb_spec i k) as [Hlt | Hge].
  - rewrite Z.shiftl_spec_low by lia.
    destruct (Z.eqb_spec k i); [lia |]. apply andb_false_r.
  - rewrite Z.shiftl_spec, Z.land_spec, Z.shiftr_spec by lia.
    replace (i - k + k) with i by lia.
    change (Z.ones 1) with (2 ^ 0). rewrite Z.pow2_bits_eqb by lia.
    f_equal. destruct (Z.eqb_spec k i), (Z.eqb_spec 0 (i - k)); lia || reflexivity.
Qed.

(** [sign_extend] in closed form. *)
Lemma sign_extend_eq (z bits : Z) :
  1 <= bits ->
  sign_extend z bits
  = Ok (z mod 2 ^ (bits - 1) - 2 ^ (bits - 1) * ((z / 2 ^ (bits - 1)) mod 2)).
Proof.
  intros Hbits. unfold sign_extend, py_lshift.
  destruct (Z.ltb_spec (bits - 1) 0); [lia |].
  rewrite Z.shiftl_1_l, Z.sub_1_r, <- Z.ones_equiv, Z.land_ones by lia.
  rewrite land_pow2 by lia. reflexivity.
Qed.

(** [sign_extend(value, bits)] with [bits >= 1] returns, for every integer
    [value], the one integer congruent to it modulo [2^bits] that lies in
    [[-2^(bits-1), 2^(bits-1))]; with [bits <= 0] it raises [ValueError]
    (negative shift count). *)
Theorem sign_extend_spec (z bits : Z) :
  (1 <= bits ->
   exists r, sign_extend z bits = Ok r /\
             - 2 ^ (bits - 1) <= r < 2 ^ (bits - 1) /\
             r mod 2 ^ bits = z mod 2 ^ bits) /\
  (bits <= 0 -> sign_extend z bits = Raise ValueError).
Proof.
  split.
  - intros Hbits. eexists. split; [apply sign_extend_eq; assumption |].
    set (h := 2 ^ (bits - 1)).
    assert (Hh : 0 < h) by (apply Z.pow_pos_nonneg; lia).
    assert (H2h : 2 ^ bits = h * 2).
    { subst h. replace bits with (bits - 1 + 1) at 1 by lia.
      rewrite Z.pow_add_r by lia. reflexivity. }
    pose proof (Z.mod_pos_bound z h Hh) as Hlow.
    pose proof (Z.mod_pos_bound (z / h) 2 ltac:(lia)) as Hbit.
    split; [nia |].
    rewrite H2h, (Z.rem_mul_r z h 2) by lia.
    replace (z mod h - h * ((z / h) mod 2))
      with (z mod h + h * ((z / h) mod 2) + - ((z / h) mod 2) * (h * 2)) by ring.
    rewrite Z.mod_add by lia.
    rewrite <- (Z.rem_mul_r z h 2) by lia.
    rewrite Z.mod_mod by lia. reflexivity.
  - intros Hbits. unfold sign_extend, py_lshift.
    destruct (Z.ltb_spec (bits - 1) 0); [reflexivity | lia].
Qed.

(** On a value that fits [bits] bits, [sign_extend] subtracts [2^bits]
    when the top bit is set and returns the value otherwise. *)
Lemma sign_extend_in_range (z bits : Z) :
  1 <= bits ->
  0 <= z < 2 ^ bits ->
  sign_extend z bits = Ok (if z <? 2 ^ (bits - 1) then z else z - 2 ^ bits).
Proof.
  intros Hbits Hz. rewrite sign_extend_eq by assumption. f_equal.
  set (h := 2 ^ (bits - 1)).
  assert (Hh : 0 < h) by (apply Z.pow_pos_nonneg; lia).
  assert (H2h : 2 ^ bits = h * 2).
  { subst h. replace bits with (bits - 1 + 1) at 1 by lia.
    rewrite Z.pow_add_r by lia. reflexivity. }
  rewrite H2h in *.
  destruct (Z.ltb_spec z h).
  - rewrite Z.mod_small, Z.div_small by lia. rewrite Z.mod_0_l by lia. lia.
  - assert (Hq : z / h = 1) by (symmetry; apply (Z.div_unique_pos z h 1 (z - h)); lia).
    assert (Hr : z mod h = z - h)
      by (symmetry; apply (Z.mod_unique_pos z h 1 (z - h)); lia).
    rewrite Hq, Hr. change (1 mod 2) with 1. lia.
Qed.

(** The test [x & sign_bit] of [visit_LLIL_CMP_SLT] on a value that fits. *)
Lemma land_sign_bit (z bits : Z) :
  1 <= bits ->
  0 <= z < 2 ^ bits ->
  (Z.land z (2 ^ (bits - 1)) =? 0) = (z <? 2 ^ (bits - 1)).
Proof.
  intros Hbits Hz. rewrite land_pow2 by lia.
  set (h := 2 ^ (bits - 1)).
  assert (Hh : 0 < h) by (apply Z.pow_pos_nonneg; lia).
  assert (H2h : 2 ^ bits = h * 2).
  { subst h. replace bits with (bits - 1 + 1) at 1 by lia.
    rewrite Z.pow_add_r by lia. reflexivity. }
  rewrite H2h in *.
  destruct (Z.ltb_spec z h).
  - rewrite Z.div_small by lia. rewrite Z.mod_0_l by lia.
    rewrite Z.mul_0_r. reflexivity.
  - assert (Hq : z / h = 1) by (symmetry; apply (Z.div_unique_pos z h 1 (z - h)); lia).
    rewrite Hq. change (1 mod 2) with 1.
    destruct (Z.eqb_spec (h * 1) 0); [lia | reflexivity].
Qed.

(** [visit_LLIL_SX] reads its operand as a signed integer of the node's own
    width: an operand below [2^(size*8 - 1)] comes back unchanged, one from
    there up to [2^(size*8)] comes back lowered by [2^(size*8)], hence
    negative.  The width of the operand node plays no part. *)
Theorem visit_LLIL_SX_signed size src v s s1 :
  visit src s = (Ok v, s1) ->
  (1 <= size)%N ->
  0 <= as_int v < 2 ^ (8 * Z.of_N size) ->
  visit (LLIL_SX size src) s
  = (Ok (PInt (if as_int v <? 2 ^ (8 * Z.of_N size - 1) then as_int v
               else as_int v - 2 ^ (8 * Z.of_N size))), s1).
Proof.
  intros Hsrc Hsize Hv.
  pose proof (sign_extend_in_range (as_int v) (8 * Z.of_N size)
                ltac:(lia) Hv) as Hse.
  unfold sign_extend in Hse.
  cbn [visit]. run_monad. rewrite Hsrc.
  replace (Z.of_N size * 8 - 1) with (8 * Z.of_N size - 1) by lia.
  destruct (py_lshift 1 (8 * Z.of_N size - 1)) as [sign_bit | e];
    [| discriminate].
  injection Hse as ->. reflexivity.
Qed.

(** [visit_LLIL_CMP_SLT] on operands that fit the node's width compares
    them as [sign_extend] reads them; on a node of width 0 it raises
    [ValueError] once both operands are evaluated. *)
Theorem visit_LLIL_CMP_SLT_signed size l r a b s s1 s2 :
  visit l s = (Ok a, s1) ->
  visit r s1 = (Ok b, s2) ->
  ((1 <= size)%N ->
   0 <= as_int a < 2 ^ (8 * Z.of_N size) ->
   0 <= as_int b < 2 ^ (8 * Z.of_N size) ->
   exists sa sb,
     sign_extend (as_int a) (8 * Z.of_N size) = Ok sa /\
     sign_extend (as_int b) (8 * Z.of_N size) = Ok sb /\
     visit (LLIL_CMP_SLT size l r) s = (Ok (PBool (sa <? sb)), s2)) /\
  (size = 0%N -> visit (LLIL_CMP_SLT size l r) s = (Raise ValueError, s2)).
Proof.
  intros Hl Hr. split.
  - intros Hsize Ha Hb.
    do 2 eexists.
    split; [apply sign_extend_in_range; [lia | exact Ha] |].
    split; [apply sign_extend_in_range; [lia | exact Hb] |].
    cbn [visit]. run_monad. rewrite Hl, Hr.
    unfold py_lshift.
    destruct (Z.ltb_spec (Z.of_N size * 8 - 1) 0); [lia |].
    rewrite Z.shiftl_1_l, bit_pow2.
    replace (Z.of_N size * 8 - 1) with (8 * Z.of_N size - 1) by lia.
    rewrite !land_sign_bit by (assumption || lia).
    destruct (as_int a <? _), (as_int b <? _); reflexivity.
  - intros ->. cbn [visit]. run_monad. rewrite Hl, Hr. reflexivity.
Qed.

(** *** What evaluation leaves alone *)

(** A projection of the interpreter kept by both halves of a bind is kept
    by the bind. *)
Lemma bind_keeps {A B X : Type} (f : Emilator Hook BinaryView -> X)
    (m : M A) (k : A -> M B) s :
  (forall s0, f (state_of (m s0)) = f s0) ->
  (forall a s0, f (state_of (k a s0)) = f s0) ->
  f (state_of ((m ≫= k) s)) = f s.
Proof.
  intros Hm Hk. run_monad.
  specialize (Hm s). destruct (m s) as [[a | e] s1]; simpl in *.
  - rewrite Hk. exact Hm.
  - exact Hm.
Qed.

Lemma read_memory_state addr length s :
  state_of (read_memory addr length s) = s.
Proof.
  unfold read_memory. destruct (fmt !! length) as [c |]; [| reflexivity].
  run_monad. simpl.
  destruct (negb (Memory.contains (_memory s) addr)); [reflexivity |].
  destruct (Memory.read (_memory s) addr length) as [bs |]; [| reflexivity].
  destruct (struct.unpack _ _ bs); reflexivity.
Qed.

Lemma get_register_value_state register s :
  state_of (get_register_value register s) = s.
Proof.
  destruct register as [i | r | n]; simpl.
  - destruct (LLIL_REG_IS_TEMP i);
      [apply get_temp_register_value_state | reflexivity].
  - destruct (LLIL_REG_IS_TEMP (index r)); simpl;
      [apply get_temp_register_value_state | apply get_register_value_named_state].
  - apply get_register_value_named_state.
Qed.

Lemma lift_state {A : Type} (o : outcome A) s : state_of (lift o s) = s.
Proof. reflexivity. Qed.

(** Evaluating an expression with no writing node (constants, register and
    flag reads, loads, comparisons, arithmetic, extensions, shifts) leaves
    the whole interpreter as it was, whether the evaluation returns or
    raises. *)
Theorem visit_without_writes_pure e s :
  writes e = false -> state_of (visit e s) = s.
Proof.
  revert s. induction e; intros s Hw; cbn [writes] in Hw;
    try discriminate;
    try (apply orb_false_elim in Hw as [Hl Hr]);
    cbn [visit];
    try reflexivity;
    repeat first
      [ apply get_register_value_state
      | apply read_memory_state
      | apply (bind_keeps (fun s0 => s0)); [intros ?; auto | intros ? ?]
      | apply lift_state
      | solve [auto]
      | reflexivity ].
Qed.

Lemma set_register_value_named_control n v s :
  control (state_of (set_register_value_named n v s)) = control s.
Proof.
  unfold set_register_value_named. run_monad. simpl.
  destruct (regs (arch (_function s)) !! n) as [info |]; simpl; [| reflexivity].
  destruct (decide (n = full_width_reg info)); [reflexivity |].
  destruct (regs (arch (_function s)) !! full_width_reg info) as [parent |];
    simpl; [| reflexivity].
  destruct (_regs s !! _) as [full |]; simpl;
    destruct (extend info), (bool_decide (offset info = 0%N)); reflexivity.
Qed.

Lemma set_register_value_control register v s :
  control (state_of (set_register_value register v s)) = control s.
Proof.
  destruct register as [i | r | n]; simpl.
  - destruct (LLIL_REG_IS_TEMP i); reflexivity.
  - destruct (LLIL_REG_IS_TEMP (index r)); simpl;
      [reflexivity | apply set_register_value_named_control].
  - apply set_register_value_named_control.
Qed.

Lemma write_memory_control addr data length s :
  control (state_of (write_memory addr data length s)) = control s.
Proof.
  unfold write_memory. run_monad. simpl.
  destruct (negb (Memory.contains (_memory s) addr)); [reflexivity |].
  destruct data as [v | bs]; simpl.
  - destruct (negb (valid_length length)); [reflexivity |].
    destruct (fmt !! _) as [c |]; simpl; [| reflexivity].
    destruct (struct.pack _ _ _) as [bs |]; simpl; [| reflexivity].
    destruct (Memory.write _ _ _); reflexivity.
  - destruct (Memory.write _ _ _); reflexivity.
Qed.

(** Control is kept by every node but [Goto], [If] and [Call]. *)
Lemma visit_keeps_control e s :
  redirects e = false -> control (state_of (visit e s)) = control s.
Proof.
  revert s. induction e; intros s Hr; cbn [redirects] in Hr;
    try discriminate;
    try (apply orb_false_elim in Hr as [Hr1 Hr2]);
    cbn [visit];
    try reflexivity;
    repeat first
      [ apply set_register_value_control
      | apply write_memory_control
      | rewrite get_register_value_state; reflexivity
      | rewrite read_memory_state; reflexivity
      | apply (bind_keeps control); [intros ? | intros ? ?]
      | solve [auto]
      | reflexivity ].
Qed.

(** Evaluating an expression with no [Goto], [If] or [Call] node leaves the
    instruction index, the active function, the hook registry and the view
    as they were and makes no outside call, whether it returns or raises:
    register, flag and memory writes, pushes and pops never move control. *)
Theorem visit_without_redirect_keeps_control e s :
  redirects e = false ->
  let s' := state_of (visit e s) in
  instr_index s' = instr_index s /\
  _function s' = _function s /\
  _function_hooks s' = _function_hooks s /\
  _view s' = _view s /\
  events s' = events s.
Proof.
  intros Hr s'.
  pose proof (visit_keeps_control e s Hr) as Hc.
  fold s' in Hc. unfold control in Hc.
  injection Hc as Hidx Hfun Hhooks Hview Hev.
  repeat split; assumption.
Qed.

(** *** Memory accessors *)

(** An integer written with [write_memory] is read back by [read_memory]
    at the same address and width, when the width is one of 1, 2, 4, 8
    with the size the host gives its format, the value fits it, and the
    bytes lie in one mapped segment. *)
Theorem write_memory_read_memory addr v len c seg s :
  fmt !! len = Some c ->
  Z.of_nat (struct.calcsize host
              (pack_fmt_of (endianness (arch (_function s))) c)) = len ->
  0 <= as_int v < 2 ^ (8 * len) ->
  List.find (Memory.covers addr) (Memory.segments (_memory s)) = Some seg ->
  addr + len <= Memory.seg_start seg + Memory.seg_length seg ->
  length (Memory.seg_data seg) = Z.to_nat (Memory.seg_length seg) ->
  let written := write_memory addr (DataInt v) (Some len) s in
  result_of written = Ok (PBool true) /\
  read_memory addr len (state_of written)
  = (Ok (PInt (as_int v)), state_of written).
Proof.
  intros Hfmt Hsize Hv Hfind Hend Hbuf written.
  pose proof (find_some _ _ Hfind) as [_ Hcov].
  unfold Memory.covers in Hcov. apply andb_true_iff in Hcov as [Hlo Hhi].
  apply Z.leb_le in Hlo. apply Z.ltb_lt in Hhi.
  destruct (struct.pack host (pack_fmt_of (endianness (arch (_function s))) c)
              (as_int v)) as [bs | e] eqn:Hpack.
  2: { unfold struct.pack in Hpack. rewrite Hsize in Hpack.
       destruct (Z.leb_spec 0 (as_int v)); [| lia].
       destruct (Z.ltb_spec (as_int v) (2 ^ (8 * len))); [| lia].
       discriminate. }
  pose proof (unpack_pack _ _ _ _ Hpack) as [Hlen Hunpack].
  assert (Hw : Z.of_nat (length bs) = len) by (rewrite Hlen; exact Hsize).
  destruct (Memory.write (_memory s) addr bs) as [m' | e] eqn:Hwrite.
  2: { unfold Memory.write in Hwrite. rewrite Hfind, Hw in Hwrite.
       destruct (Z.leb_spec (addr + len)
                   (Memory.seg_start seg + Memory.seg_length seg));
         [discriminate | lia]. }
  assert (Hoff : (Z.to_nat (addr - Memory.seg_start seg)
                  <= length (Memory.seg_data seg))%nat) by lia.
  pose proof (read_write _ _ _ _ _ Hfind Hoff Hwrite) as [Hin' Hread].
  rewrite Hw in Hread.
  subst written.
  rewrite (write_memory_int addr v len c bs m' s
             (find_contains _ _ _ Hfind) Hfmt Hpack Hwrite).
  split; [reflexivity |].
  apply (read_memory_int addr len c bs (as_int v) (with_memory m' s)
           Hfmt Hin' Hread Hunpack).
Qed.

Lemma write_memory_raise_state addr data length s e :
  result_of (write_memory addr data length s) = Raise e ->
  state_of (write_memory addr data length s) = s.
Proof.
  unfold write_memory. run_monad. simpl.
  destruct (negb (Memory.contains (_memory s) addr)); [reflexivity |].
  destruct data as [v | bs]; simpl.
  - destruct (negb (valid_length length)); [reflexivity |].
    destruct (fmt !! _) as [c |]; simpl; [| reflexivity].
    destruct (struct.pack _ _ _) as [bs |]; simpl; [| reflexivity].
    destruct (Memory.write _ _ _) as [m' |]; simpl; [discriminate | reflexivity].
  - destruct (Memory.write _ _ _) as [m' |]; simpl; [discriminate | reflexivity].
Qed.

(** [write_memory] touches nothing but the memory image, whether it
    returns or raises: registers, flags, hooks, the active function and the
    instruction index are as before.  When it returns, it returns
    [True]. *)
Theorem write_memory_frame addr data length s :
  let written := write_memory addr data length s in
  (exists m', state_of written = with_memory m' s) /\
  (forall w, result_of written = Ok w -> w = PBool true).
Proof.
  intros written. subst written.
  assert (Hsame : s = with_memory (_memory s) s) by (destruct s; reflexivity).
  unfold write_memory. run_monad. simpl.
  destruct (negb (Memory.contains (_memory s) addr));
    [split; [eauto | discriminate] |].
  destruct data as [v | bs]; simpl.
  - destruct (negb (valid_length length));
      [split; [eauto | discriminate] |].
    destruct (fmt !! _) as [c |]; simpl;
      [| split; [eauto | discriminate]].
    destruct (struct.pack _ _ _) as [bs |]; simpl;
      [| split; [eauto | discriminate]].
    destruct (Memory.write _ _ _) as [m' |]; simpl.
    + split; [eauto |]. intros w [= <-]. reflexivity.
    + split; [eauto | discriminate].
  - destruct (Memory.write _ _ _) as [m' |]; simpl.
    + split; [eauto |]. intros w [= <-]. reflexivity.
    + split; [eauto | discriminate].
Qed.

(** An integer that does not fit the width (a negative one, such as an
    unmasked difference, or one of [2^(8*n)] and more for an [n]-byte
    item) is refused by [write_memory] at a mapped address with
    [struct.error], and nothing is written. *)
Theorem write_memory_out_of_range addr v len c s :
  Memory.contains (_memory s) addr = true ->
  fmt !! len = Some c ->
  let n := struct.calcsize host
             (pack_fmt_of (endianness (arch (_function s))) c) in
  as_int v < 0 \/ 2 ^ (8 * Z.of_nat n) <= as_int v ->
  write_memory addr (DataInt v) (Some len) s = (Raise StructError, s).
Proof.
  intros Hin Hfmt n Hv.
  assert (Hvalid : valid_length (Some len) = true).
  { unfold fmt in Hfmt. unfold valid_length.
    destruct (Z.eqb_spec len 1); [reflexivity |].
    destruct (Z.eqb_spec len 2); [reflexivity |].
    destruct (Z.eqb_spec len 4); [reflexivity |].
    destruct (Z.eqb_spec len 8); [reflexivity |].
    rewrite !lookup_insert_ne, lookup_empty in Hfmt by congruence.
    discriminate. }
  unfold write_memory. run_monad. rewrite Hin, Hvalid.
  cbn [negb default from_option id]. rewrite Hfmt.
  unfold struct.pack. fold n.
  destruct (Z.leb_spec 0 (as_int v)); simpl; [| reflexivity].
  destruct (Z.ltb_spec (as_int v) (2 ^ (8 * Z.of_nat n))); [lia | reflexivity].
Qed.

(** *** The stack on failure *)

(** A Pop whose read fails and a Push whose write fails leave the stack
    pointer where it was: Pop stores the new stack pointer only after the
    read, Push only after the write.  The failing Pop changes nothing at
    all; the failing Push leaves every register as evaluating its operand
    left it. *)
Theorem stack_fault_keeps_stack_pointer sz sp a s :
  stack_pointer (arch (_function s)) = sp ->
  get_register_value (RegName sp) s = (Ok a, s) ->
  (forall e,
     result_of (read_memory (as_int a + Z.of_N sz) (Z.of_N sz) s) = Raise e ->
     visit (LLIL_POP sz) s = (Raise e, s)) /\
  (forall src v e,
     visit src s = (Ok v, s) ->
     result_of (write_memory (as_int a) (DataInt v) (Some (Z.of_N sz)) s)
     = Raise e ->
     result_of (visit (LLIL_PUSH sz src) s) = Raise e /\
     _regs (state_of (visit (LLIL_PUSH sz src) s)) = _regs s).
Proof.
  intros Hsp Hget. split.
  - intros e Hread.
    pose proof (read_memory_state (as_int a + Z.of_N sz) (Z.of_N sz) s) as Hst.
    cbn [visit]. run_monad. rewrite Hsp, Hget. cbn [as_int].
    destruct (read_memory _ _ s) as [[w | e'] s1]; simpl in *;
      [discriminate |].
    injection Hread as ->. subst s1. reflexivity.
  - intros src v e Hsrc Hwrite.
    pose proof (write_memory_raise_state (as_int a) (DataInt v)
                  (Some (Z.of_N sz)) s e Hwrite) as Hst.
    cbn [visit]. run_monad. rewrite Hsp, Hsrc, Hget.
    destruct (write_memory _ _ _ s) as [[w | e'] s1]; simpl in *;
      [discriminate |].
    injection Hwrite as ->. subst s1. split; reflexivity.
Qed.

(** *** Shifts *)

(** The shift-right node is Python's [>>] on the evaluated operands: for a
    count [b >= 0] it returns [floor(a / 2^b)], unmasked, so a negative
    operand (an unmasked difference, say) gives a negative result; a
    negative count raises [ValueError], for shift-left as well. *)
Theorem visit_shift_right_floor size l r a b s s1 s2 :
  visit l s = (Ok a, s1) ->
  visit r s1 = (Ok b, s2) ->
  (0 <= as_int b ->
   visit (LLIL_LSR size l r) s = (Ok (PInt (as_int a / 2 ^ as_int b)), s2)) /\
  (0 <= as_int b -> as_int a < 0 ->
   exists z, visit (LLIL_LSR size l r) s = (Ok (PInt z), s2) /\ z < 0) /\
  (as_int b < 0 ->
   visit (LLIL_LSR size l r) s = (Raise ValueError, s2) /\
   visit (LLIL_LSL size l r) s = (Raise ValueError, s2)).
Proof.
  intros Hl Hr.
  assert (Hlsr : 0 <= as_int b ->
                 visit (LLIL_LSR size l r) s
                 = (Ok (PInt (as_int a / 2 ^ as_int b)), s2)).
  { intros Hb. cbn [visit]. run_monad. rewrite Hl, Hr.
    unfold py_rshift. destruct (Z.ltb_spec (as_int b) 0); [lia |].
    rewrite Z.shiftr_div_pow2 by assumption. reflexivity. }
  split; [exact Hlsr |]. split.
  - intros Hb Ha. eexists. split; [apply Hlsr; assumption |].
    apply Z.div_lt_upper_bound; [apply Z.pow_pos_nonneg; lia | lia].
  - intros Hb. split; cbn [visit]; run_monad; rewrite Hl, Hr;
      unfold py_rshift, py_lshift;
      destruct (Z.ltb_spec (as_int b) 0); (reflexivity || lia).
Qed.

(** *** Hooks and calls *)

(** [unregister_function_hook] removes nothing: after a hook is registered
    for an address and then unregistered, the interpreter is the one the
    registration left, and a Call to that address still invokes the hook. *)
Theorem unregister_function_hook_keeps_hook function hook sz s :
  let s1 := state_of (register_function_hook function hook s) in
  let s2 := state_of (unregister_function_hook function hook s1) in
  s2 = s1 /\
  _function_hooks s2 !! function = Some hook /\
  events (state_of (visit (LLIL_CALL (LLIL_CONST sz function)) s2))
  = events s ++ [HookInvoked function hook].
Proof.
  intros s1 s2.
  assert (Hsame : s2 = s1) by reflexivity.
  assert (Hhook : _function_hooks s1 !! function = Some hook)
    by (apply lookup_insert_eq).
  split; [exact Hsame |]. rewrite Hsame.
  split; [exact Hhook |].
  cbn [visit]. run_monad. cbn [as_int]. rewrite Hhook.
  unfold invoke_hook.
  destruct (call_hook hook s1) as [[[] | e] s']; reflexivity.
Qed.

(** A Call to an address without hook, for which the view has no function
    even after it was asked to create and analyse one, raises
    [AttributeError].  The active function and the instruction index are
    then unchanged, but the view is the one creation and analysis left,
    and the four requests to it are on record. *)
Theorem visit_LLIL_CALL_unresolved dest target s s1 :
  visit dest s = (Ok target, s1) ->
  _function_hooks s1 !! as_int target = None ->
  get_function_at (_view s1) (as_int target) = None ->
  let view' := update_analysis_and_wait
                 (create_user_function (_view s1) (as_int target)) in
  get_function_at view' (as_int target) = None ->
  let called := visit (LLIL_CALL dest) s in
  result_of called = Raise AttributeError /\
  _function (state_of called) = _function s1 /\
  instr_index (state_of called) = instr_index s1 /\
  _view (state_of called) = view' /\
  events (state_of called)
  = events s1 ++ [GetFunctionAt (as_int target);
                  CreateUserFunction (as_int target);
                  UpdateAnalysisAndWait;
                  GetFunctionAt (as_int target)].
Proof.
  intros Hdest Hhook Hnone view' Hnone' called. subst called.
  cbn [visit]. run_monad. rewrite Hdest. simpl. rewrite Hhook.
  unfold view_get_function_at, log_event. run_monad. simpl.
  rewrite Hnone. simpl. fold view'. rewrite Hnone'. simpl.
  repeat split. rewrite <- !app_assoc. reflexivity.
Qed.

(** *** Flags *)

(** A flag holds the value its Set-flag operand evaluated to, as it is (it
    is not reduced to a boolean); setting it leaves every other flag as it
    was; and a flag never set reads [False]. *)
Theorem flag_roundtrip flag src v s s1 :
  visit src s = (Ok v, s1) ->
  let s2 := state_of (visit (LLIL_SET_FLAG flag src) s) in
  visit (LLIL_SET_FLAG flag src) s = (Ok v, s2) /\
  visit (LLIL_FLAG flag) s2 = (Ok v, s2) /\
  (forall other, other <> flag ->
     result_of (visit (LLIL_FLAG other) s2)
     = result_of (visit (LLIL_FLAG other) s1)) /\
  (forall other, _flags s1 !! other = None -> other <> flag ->
     result_of (visit (LLIL_FLAG other) s2) = Ok (PBool false)).
Proof.
  intros Hsrc s2.
  assert (Hs2 : s2 = with_flags (<[flag := v]> (_flags s1)) s1).
  { subst s2. cbn [visit]. run_monad. rewrite Hsrc. reflexivity. }
  split; [| split; [| split]].
  - rewrite Hs2. cbn [visit]. run_monad. rewrite Hsrc. reflexivity.
  - rewrite Hs2. cbn [visit]. unfold get_flag_value. run_monad. simpl.
    rewrite lookup_insert_eq. reflexivity.
  - intros other Hne. rewrite Hs2. cbn [visit]. unfold get_flag_value.
    run_monad. simpl. rewrite lookup_insert_ne by congruence. reflexivity.
  - intros other Hunset Hne. rewrite Hs2. cbn [visit]. unfold get_flag_value.
    run_monad. simpl. rewrite lookup_insert_ne by congruence.
    rewrite Hunset. reflexivity.
Qed.

End Visitor.

(** ** Properties of the stepping driver *)
Section DriverProperties.

Context {Hook BinaryView : Type} {env : Environment Hook BinaryView}.

Variable getitem : LowLevelILFunction -> Z -> option expr.
Variable len : LowLevelILFunction -> Z.
Variable get_segment_at : BinaryView -> Z -> option Z.

Implicit Types (s : Emilator Hook BinaryView).

(** A step on an instruction with no [Goto], [If] or [Call] node leaves the
    instruction index one past where it was and the active function as it
    was, whether the instruction returned or raised: the index is advanced
    before the instruction is visited and is not restored on failure. *)
Theorem execute_instruction_advances instruction s :
  getitem (_function s) (instr_index s) = Some instruction ->
  redirects instruction = false ->
  let s' := snd (execute_instruction getitem s) in
  instr_index s' = instr_index s + 1 /\
  _function s' = _function s.
Proof.
  intros Hfetch Hr s'. subst s'.
  unfold execute_instruction. rewrite Hfetch.
  pose proof (visit_keeps_control instruction
                (with_instr_index (instr_index s + 1) s) Hr) as Hc.
  unfold state_of, control in Hc.
  destruct (visit instruction (with_instr_index (instr_index s + 1) s))
    as [[w | e] s1]; simpl in *;
    injection Hc as Hidx Hfun _ _ _; split; assumption.
Qed.

(** A step on a [Goto] leaves the index at its target, and a step on an
    [If] at the true target when the condition is non-zero and at the false
    target when it is zero: the advance made before the visit is
    overwritten. *)
Theorem execute_instruction_branches s :
  (forall dest,
     getitem (_function s) (instr_index s) = Some (LLIL_GOTO dest) ->
     execute_instruction getitem s = (Stepped, with_instr_index dest s)) /\
  (forall condition t f c s1,
     getitem (_function s) (instr_index s) = Some (LLIL_IF condition t f) ->
     visit condition (with_instr_index (instr_index s + 1) s) = (Ok c, s1) ->
     execute_instruction getitem s
     = (Stepped, with_instr_index (if as_int c =? 0 then f else t) s1)).
Proof.
  split.
  - intros dest Hfetch. unfold execute_instruction. rewrite Hfetch.
    reflexivity.
  - intros condition t f c s1 Hfetch Hcond.
    unfold execute_instruction. rewrite Hfetch. cbn [visit].
    unfold mbind, M_bind. rewrite Hcond. unfold truthy.
    destruct (as_int c =? 0); reflexivity.
Qed.


(** *** Placing a new segment *)

Lemma find_available_loop_sound view max_address align_mask size align
    fuel current a :
  find_available_loop get_segment_at view max_address align_mask size align
    fuel current = Some (Some a) ->
  a < max_address - size /\
  get_segment_at view a = None /\
  get_segment_at view (a + size - 1) = None.
Proof.
  revert current. induction fuel as [| k IH]; intros current; cbn [find_available_loop];
    [discriminate |].
  destruct (Z.ltb_spec current (max_address - size)) as [Hlt |]; [| discriminate].
  destruct (get_segment_at view current) as [segment_end |] eqn:Hcur.
  - apply IH.
  - destruct (get_segment_at view (current + size - 1)) eqn:Hend.
    + apply IH.
    + intros [= <-]. auto.
Qed.

(** An address returned by [_find_available_segment] lies below
    [max_address - size] and has no segment at it nor at its last byte
    [address + size - 1]. *)
Theorem find_available_segment_sound size align fuel a s :
  _find_available_segment get_segment_at size align fuel s = Some (Some a) ->
  a < bit (address_size (arch (_function s))) - 1 - size /\
  get_segment_at (_view s) a = None /\
  get_segment_at (_view s) (a + size - 1) = None.
Proof.
  unfold _find_available_segment. apply find_available_loop_sound.
Qed.

(** Only the two ends of the candidate are looked at: when address 0 and
    address [size - 1] are in no segment, [_find_available_segment]
    returns 0 on the first iteration, whatever is mapped in between. *)
Theorem find_available_segment_first_fit size align fuel s :
  size < bit (address_size (arch (_function s))) - 1 ->
  get_segment_at (_view s) 0 = None ->
  get_segment_at (_view s) (size - 1) = None ->
  _find_available_segment get_segment_at size align (S fuel) s = Some (Some 0).
Proof.
  intros Hsize Hfirst Hlast.
  unfold _find_available_segment. cbn [find_available_loop].
  destruct (Z.ltb_spec 0 (bit (address_size (arch (_function s))) - 1 - size));
    [| lia].
  rewrite Hfirst. change (0 + size - 1) with (size - 1). rewrite Hlast.
  reflexivity.
Qed.

(** The search does not end when the gap in front of a segment is too
    small: if address 0 is in no segment but address [size - 1] is, the
    loop stays at 0, so no number of iterations produces a result. *)
Theorem find_available_segment_diverges size align segment_end s :
  size < bit (address_size (arch (_function s))) - 1 ->
  get_segment_at (_view s) 0 = None ->
  get_segment_at (_view s) (size - 1) = Some segment_end ->
  forall fuel,
    _find_available_segment get_segment_at size align fuel s = None.
Proof.
  intros Hsize Hfirst Hlast fuel.
  unfold _find_available_segment.
  induction fuel as [| k IH]; cbn [find_available_loop]; [reflexivity |].
  destruct (Z.ltb_spec 0 (bit (address_size (arch (_function s))) - 1 - size));
    [| lia].
  rewrite Hfirst. change (0 + size - 1) with (size - 1). rewrite Hlast.
  exact IH.
Qed.

End DriverProperties.

(** ** The further properties on the concrete machine *)

(** Temporary [0x80000001] keeps [-5] as it is. *)
Lemma temporary_register_roundtrip_demo :
  let s' := with_regs (<[(inl 0x80000001 : regkey) := PInt (-5)]>
                         (_regs demo_emilator)) demo_emilator in
  set_register_value (RegIndex 0x80000001) (PInt (-5)) demo_emilator
  = (Ok (PInt (-5)), s') /\
  get_register_value (RegIndex 0x80000001) s' = (Ok (PInt (-5)), s').
Proof.
  refine (temporary_register_roundtrip (RegIndex 0x80000001) 0x80000001
            (PInt (-5)) demo_emilator _); by_evaluation.
Defined.

(** [R64] written with [-2^64 - 1] reads [2^64 - 1]. *)
Lemma full_width_register_roundtrip_demo :
  result_of (get_register_value (RegName "R64")
               (state_of (set_register_value (RegName "R64")
                            (PInt (- 2 ^ 64 - 1)) demo_emilator)))
  = Ok (PInt 0xFFFFFFFFFFFFFFFF).
Proof.
  refine (full_width_register_roundtrip (RegName "R64") "R64"
            {| full_width_reg := "R64"; size := 8; offset := 0; extend := NoExtend |}
            (PInt (- 2 ^ 64 - 1)) demo_emilator _ _ _); by_evaluation.
Defined.

(** With [R64] unset, [set(R32, 0xAABBCCDD)] makes [R64] read
    [0xAABBCCDD]. *)
Lemma zero_extend_write_replaces_parent_demo :
  let s' := with_regs (<[(inr "R64" : regkey) := PInt 0xAABBCCDD]>
                         (_regs demo_emilator)) demo_emilator in
  set_register_value (RegName "R32") (PInt 0xAABBCCDD) demo_emilator
  = (Ok (PInt 0xAABBCCDD), s') /\
  get_register_value (RegName "R64") s' = (Ok (PInt 0xAABBCCDD), s').
Proof.
  refine (zero_extend_write_replaces_parent (RegName "R32") "R32"
            {| full_width_reg := "R64"; size := 4; offset := 0;
               extend := ZeroExtendToFullWidth |}
            {| full_width_reg := "R64"; size := 8; offset := 0; extend := NoExtend |}
            (PInt 0xAABBCCDD) demo_emilator _ _ _ _ _ _ (or_introl _) _);
    by_evaluation.
Defined.

(** [R8H] (offset 1) written with [0xAB] reads [0xAB]. *)
Lemma no_extend_register_roundtrip_demo :
  result_of (get_register_value (RegName "R8H")
               (state_of (set_register_value (RegName "R8H") (PInt 0xAB)
                            (demo_with_R64 0x1122334455667788))))
  = Ok (PInt 0xAB).
Proof.
  refine (no_extend_register_roundtrip (RegName "R8H") "R8H"
            {| full_width_reg := "R64"; size := 1; offset := 1; extend := NoExtend |}
            {| full_width_reg := "R64"; size := 8; offset := 0; extend := NoExtend |}
            (PInt 0x1122334455667788) (PInt 0xAB)
            (demo_with_R64 0x1122334455667788) _ _ _ _ _ _ _ _ _);
    by_evaluation.
Defined.

(** A write through [R16] leaves temporaries and [SP] alone. *)
Lemma set_register_value_frame_demo :
  let s := demo_with_R64 0x1122334455667788 in
  let s' := state_of (set_register_value (RegName "R16") (PInt 0) s) in
  s' = with_regs (_regs s') s /\
  _regs s' !! (inl 0x80000001 : regkey) = _regs s !! (inl 0x80000001 : regkey) /\
  result_of (get_register_value (RegName "SP") s')
  = result_of (get_register_value (RegName "SP") s).
Proof.
  intros s s'.
  pose proof (set_register_value_frame (RegName "R16") "R16"
                {| full_width_reg := "R64"; size := 2; offset := 0;
                   extend := NoExtend |}
                {| full_width_reg := "R64"; size := 8; offset := 0;
                   extend := NoExtend |}
                (PInt 0) s eq_refl ltac:(by_evaluation) ltac:(by_evaluation)
                eq_refl)
    as (Hrest & Hkeys & Hfamily).
  split; [exact Hrest |].
  split; [apply Hkeys; discriminate |].
  apply (Hfamily (RegName "SP") "SP"
           {| full_width_reg := "SP"; size := 8; offset := 0; extend := NoExtend |});
    by_evaluation.
Defined.

(** On the fresh interpreter [R32] is undefined and ["nope"] is unknown. *)
Lemma get_register_value_defined_iff_demo :
  result_of (get_register_value (RegName "R32") demo_emilator)
  = Raise UndefinedError /\
  result_of (get_register_value (RegName "nope") demo_emilator)
  = Raise KeyError.
Proof.
  split.
  - refine (proj2 (proj2 (get_register_value_defined_iff (RegName "R32") "R32"
                            demo_emilator eq_refl))
              {| full_width_reg := "R64"; size := 4; offset := 0;
                 extend := ZeroExtendToFullWidth |} _ _); by_evaluation.
  - refine (proj1 (proj2 (get_register_value_defined_iff (RegName "nope") "nope"
                            demo_emilator eq_refl)) _); by_evaluation.
Defined.


(** [sign_extend(0xFF, 8)] is [-1]; [sign_extend(0xFF, 0)] raises. *)
Lemma sign_extend_spec_demo :
  (exists r, sign_extend 0xFF 8 = Ok r /\ - 2 ^ 7 <= r < 2 ^ 7 /\
             r mod 2 ^ 8 = 0xFF mod 2 ^ 8) /\
  sign_extend 0xFF 0 = Raise ValueError.
Proof.
  split.
  - refine (proj1 (sign_extend_spec 0xFF 8) _). by_evaluation.
  - refine (proj2 (sign_extend_spec 0xFF 0) _). by_evaluation.
Defined.

(** A 4-byte [SX] node over the byte [0xFF] returns [0xFF]; a 1-byte one
    returns [-1]. *)
Lemma visit_LLIL_SX_signed_demo :
  visit (LLIL_SX 4 (LLIL_CONST 1 0xFF)) demo_emilator
  = (Ok (PInt 0xFF), demo_emilator) /\
  visit (LLIL_SX 1 (LLIL_CONST 1 0xFF)) demo_emilator
  = (Ok (PInt (-1)), demo_emilator).
Proof.
  split.
  - refine (visit_LLIL_SX_signed 4 (LLIL_CONST 1 0xFF) (PInt 0xFF)
              demo_emilator demo_emilator eq_refl _ _); by_evaluation.
  - refine (visit_LLIL_SX_signed 1 (LLIL_CONST 1 0xFF) (PInt 0xFF)
              demo_emilator demo_emilator eq_refl _ _); by_evaluation.
Defined.

(** As bytes, [0xFF] is below [0x01]. *)
Lemma visit_LLIL_CMP_SLT_signed_demo :
  exists sa sb,
    sign_extend 0xFF 8 = Ok sa /\
    sign_extend 0x01 8 = Ok sb /\
    visit (LLIL_CMP_SLT 1 (LLIL_CONST 1 0xFF) (LLIL_CONST 1 0x01)) demo_emilator
    = (Ok (PBool (sa <? sb)), demo_emilator).
Proof.
  refine (proj1 (visit_LLIL_CMP_SLT_signed 1 (LLIL_CONST 1 0xFF)
                   (LLIL_CONST 1 0x01) (PInt 0xFF) (PInt 0x01)
                   demo_emilator demo_emilator demo_emilator eq_refl eq_refl)
            _ _ _); by_evaluation.
Defined.

(** A load through a register, added to a flag, changes nothing. *)
Lemma visit_without_writes_pure_demo :
  let e := LLIL_ADD 8 (LLIL_LOAD 8 (LLIL_REG 8 {| index := 1; name := "SP" |}))
             (LLIL_FLAG 3) in
  state_of (visit e demo_with_stack) = demo_with_stack.
Proof.
  intros e. refine (visit_without_writes_pure e demo_with_stack _).
  by_evaluation.
Defined.

(** A push of a register leaves control alone. *)
Lemma visit_without_redirect_keeps_control_demo :
  let e := LLIL_PUSH 8 (LLIL_REG 8 {| index := 1; name := "SP" |}) in
  let s' := state_of (visit e demo_with_stack) in
  instr_index s' = instr_index demo_with_stack /\
  _function s' = _function demo_with_stack /\
  _function_hooks s' = _function_hooks demo_with_stack /\
  _view s' = _view demo_with_stack /\
  events s' = events demo_with_stack.
Proof.
  intros e. refine (visit_without_redirect_keeps_control e demo_with_stack _).
  by_evaluation.
Defined.

(** [write_memory(0x1000, 0xBADF00D, 4)] then [read_memory(0x1000, 4)]. *)
Lemma write_memory_read_memory_demo :
  let written := write_memory 0x1000 (DataInt (PInt 0xBADF00D)) (Some 4)
                   demo_with_stack in
  result_of written = Ok (PBool true) /\
  read_memory 0x1000 4 (state_of written)
  = (Ok (PInt 0xBADF00D), state_of written).
Proof.
  refine (write_memory_read_memory 0x1000 (PInt 0xBADF00D) 4 struct.L
            {| Memory.seg_start := 0x1000; Memory.seg_length := 0x2000;
               Memory.seg_flags := 3;
               Memory.seg_data := repeat 0 (Z.to_nat 0x2000) |}
            demo_with_stack _ _ _ _ _ _); by_evaluation.
Defined.

(** A write of four bytes at [0x1000] changes the memory image only. *)
Lemma write_memory_frame_demo :
  let written := write_memory 0x1000 (DataInt (PInt 5)) (Some 4)
                   demo_with_stack in
  (exists m', state_of written = with_memory m' demo_with_stack) /\
  result_of written = Ok (PBool true).
Proof.
  intros written.
  pose proof (write_memory_frame 0x1000 (DataInt (PInt 5)) (Some 4)
                demo_with_stack) as [Hframe Htrue].
  split; [exact Hframe |].
  destruct (result_of written) as [w | e] eqn:Hres.
  - rewrite (Htrue w Hres). reflexivity.
  - vm_compute in Hres. discriminate.
Defined.

(** [-8] does not go into one byte. *)
Lemma write_memory_out_of_range_demo :
  write_memory 0x1000 (DataInt (PInt (-8))) (Some 1) demo_with_stack
  = (Raise StructError, demo_with_stack).
Proof.
  refine (write_memory_out_of_range 0x1000 (PInt (-8)) 1 struct.B
            demo_with_stack _ _ (or_introl _)); by_evaluation.
Defined.

(** With [SP = 0x2FFC], four bytes from the end of the mapping, a Pop of 8
    bytes fails and changes nothing. *)
Lemma stack_fault_keeps_stack_pointer_demo :
  let s := state_of (set_register_value (RegName "SP") (PInt 0x2FFC)
                       demo_with_stack) in
  visit (LLIL_POP 8) s = (Raise MemoryAccessError, s).
Proof.
  intros s.
  refine (proj1 (stack_fault_keeps_stack_pointer 8 "SP" (PInt 0x2FFC) s _ _)
            MemoryAccessError _); by_evaluation.
Defined.

(** [Call(Const(0x4000))] with nothing registered and nothing in the view. *)
Lemma visit_LLIL_CALL_unresolved_demo :
  let called := visit (LLIL_CALL (LLIL_CONST 8 0x4000)) demo_emilator in
  result_of called = Raise AttributeError /\
  _function (state_of called) = _function demo_emilator /\
  instr_index (state_of called) = instr_index demo_emilator /\
  _view (state_of called) = tt /\
  events (state_of called)
  = [GetFunctionAt 0x4000; CreateUserFunction 0x4000; UpdateAnalysisAndWait;
     GetFunctionAt 0x4000].
Proof.
  refine (visit_LLIL_CALL_unresolved (LLIL_CONST 8 0x4000) (PInt 0x4000)
            demo_emilator demo_emilator _ _ _ _); by_evaluation.
Defined.

(** Flag 3 set to [5] reads [5]; flag 4 still reads [False]. *)
Lemma flag_roundtrip_demo :
  let s2 := state_of (visit (LLIL_SET_FLAG 3 (LLIL_CONST 1 5)) demo_emilator) in
  visit (LLIL_FLAG 3) s2 = (Ok (PInt 5), s2) /\
  result_of (visit (LLIL_FLAG 4) s2) = Ok (PBool false).
Proof.
  intros s2.
  pose proof (flag_roundtrip 3 (LLIL_CONST 1 5) (PInt 5) demo_emilator
                demo_emilator eq_refl) as (_ & Hsame & _ & Hunset).
  split; [exact Hsame |].
  apply Hunset; by_evaluation.
Defined.

(** On [demo_stream]: the step at 0 (a [SetReg]) ends at 1. *)
Lemma execute_instruction_advances_demo :
  let s' := snd (execute_instruction demo_getitem (demo_at 0)) in
  instr_index s' = 1 /\ _function s' = _function (demo_at 0).
Proof.
  refine (execute_instruction_advances demo_getitem
            (LLIL_SET_REG 8 demo_R64 (LLIL_CONST 8 1)) (demo_at 0) _ _);
    by_evaluation.
Defined.

(** On [demo_stream]: after the [SetReg] at 0, the [If] at 1 ends at 3;
    the [Goto] at 2 ends at 4. *)
Lemma execute_instruction_branches_demo :
  let s1 := snd (execute_instruction demo_getitem (demo_at 0)) in
  execute_instruction demo_getitem s1 = (Stepped, with_instr_index 3 s1) /\
  execute_instruction demo_getitem (demo_at 2)
  = (Stepped, with_instr_index 4 (demo_at 2)).
Proof.
  intros s1. split.
  - refine (proj2 (execute_instruction_branches demo_getitem s1)
              (LLIL_CMP_E 8 (LLIL_REG 8 demo_R64) (LLIL_CONST 8 1)) 3 5
              (PBool true) (with_instr_index 2 s1) _ _); by_evaluation.
  - refine (proj1 (execute_instruction_branches demo_getitem (demo_at 2)) 4 _);
      by_evaluation.
Defined.


(** With [[0, 0x1000)] mapped, a page is placed at [0x1001], and both its
    ends are free. *)
Lemma find_available_segment_sound_demo :
  _find_available_segment demo_view_low 0x1000 1 2 demo_emilator
  = Some (Some 0x1001) /\
  0x1001 < bit 8 - 1 - 0x1000 /\
  demo_view_low tt 0x1001 = None /\
  demo_view_low tt (0x1001 + 0x1000 - 1) = None.
Proof.
  split; [by_evaluation |].
  refine (find_available_segment_sound demo_view_low 0x1000 1 2 0x1001
            demo_emilator _). by_evaluation.
Defined.

(** With [[0x100, 0x200)] mapped, a page is still placed at 0. *)
Lemma find_available_segment_first_fit_demo :
  demo_view_inside tt 0x100 = Some 0x200 /\
  _find_available_segment demo_view_inside 0x1000 1 1 demo_emilator
  = Some (Some 0).
Proof.
  split; [by_evaluation |].
  refine (find_available_segment_first_fit demo_view_inside 0x1000 1 0
            demo_emilator _ _ _); by_evaluation.
Defined.

(** With [[0x800, 0x2000)] mapped, the search for a page has not ended
    after 1000 iterations. *)
Lemma find_available_segment_diverges_demo :
  _find_available_segment demo_view_gap 0x1000 1 1000 demo_emilator = None.
Proof.
  refine (find_available_segment_diverges demo_view_gap 0x1000 1 0x2000
            demo_emilator _ _ _ 1000%nat); by_evaluation.
Defined.

(** [(0 - 8) >> 1] is [-4]; a shift by [-1] raises. *)
Lemma visit_shift_right_floor_demo :
  let l := LLIL_SUB 8 (LLIL_CONST 8 0) (LLIL_CONST 8 8) in
  visit (LLIL_LSR 8 l (LLIL_CONST 8 1)) demo_emilator
  = (Ok (PInt (-4)), demo_emilator) /\
  visit (LLIL_LSR 8 l (LLIL_CONST 8 (-1))) demo_emilator
  = (Raise ValueError, demo_emilator).
Proof.
  intros l. split.
  - refine (proj1 (visit_shift_right_floor 8 l (LLIL_CONST 8 1) (PInt (-8))
                     (PInt 1) demo_emilator demo_emilator demo_emilator
                     eq_refl eq_refl) _); by_evaluation.
  - refine (proj1 (proj2 (proj2 (visit_shift_right_floor 8 l (LLIL_CONST 8 (-1))
                     (PInt (-8)) (PInt (-1)) demo_emilator demo_emilator
                     demo_emilator eq_refl eq_refl)) _)); by_evaluation.
Defined.
